(** * Edge exclusion on sampled subgraphs (dgl.graphbolt.sampled_subgraph)

    A shallow embedding of [python/dgl/graphbolt/sampled_subgraph.py]:
    [SampledSubgraph.exclude_edges] and its helpers [_to_reverse_ids],
    [_exclude_homo_edges], [_exclude_homo_edges_2] and [_slice_subgraph].

    Conventions of the embedding.
    - A one-dimensional integer tensor is a [list Z] of its elements.  The
      lists carry no dtype; the one operation of the module that depends on
      it, the left shift, takes the dtype of the tensor it shifts as an
      argument ([shl32]).  A call has two of them: [ids_dtype], the dtype
      of the resolved source ids of the subgraph ([edges[0]]: the row map
      where there is one, [indices] otherwise; [_to_reverse_ids] hands that
      dtype on to [expand_indptr] for the destinations), and [edges_dtype],
      the dtype of the tensors of [edges].  The [|] that follows the shift
      and the comparison in [isin] promote their operands and do not depend
      on them.
    - A two-column table [edges_to_exclude] of shape (N, 2) is a list of
      rows [(src, dst)].
    - A Python exception is a value of [error]; code that may raise returns
      [result A], and statements are sequenced with [x ← e; k], so the
      first exception raised is the one returned.
    - A dictionary that the code iterates over ([sampled_csc],
      [original_edge_ids], the local [index]) is an insertion-ordered
      association list ([dict]); a dictionary that is only looked up
      ([edges], the per-node-type id maps) is a [gmap string _].
    - Fields hold the values their annotations allow: [sampled_csc] is a
      [CSCFormatBase] or a dictionary of them (or [None], as in the
      abstract class), never the bare tuple that the homogeneity test also
      accepts.
    - [assert] statements are executed (the interpreter does not run with
      assertions stripped). *)

From Stdlib Require Import ZArith Lia Ascii String.
From stdpp Require Import base list gmap strings sorting.

Local Open Scope Z_scope.

(** ** Exceptions *)

Inductive error : Type :=
| AssertionError (msg : string)
| NotImplementedError (msg : string)
| IndexError
| KeyError (key : string)
| TypeError
| AttributeError
| RuntimeError
| EtypeError (etype : string).

Inductive result (A : Type) : Type :=
| Ok (a : A)
| Err (e : error).
Arguments Ok {A} a.
Arguments Err {A} e.

#[global] Instance result_ret : MRet result := λ A a, Ok a.
#[global] Instance result_bind : MBind result := λ A B k r,
  match r with
  | Ok a => k a
  | Err e => Err e
  end.
#[global] Instance result_fmap : FMap result := λ A B f r,
  match r with
  | Ok a => Ok (f a)
  | Err e => Err e
  end.

(** [assert cond, msg] *)
Definition py_assert (cond : bool) (msg : string) : result unit :=
  if cond then Ok tt else Err (AssertionError msg).

(** A loop [for x in l: ys.append(f x)] whose body may raise. *)
Fixpoint for_each {A B : Type} (f : A → result B) (l : list A) : result (list B) :=
  match l with
  | [] => Ok []
  | x :: l' => y ← f x; ys ← for_each f l'; Ok (y :: ys)
  end.

(** ** Tensors and the torch operations the module calls *)

Abbreviation tensor := (list Z).

(** Two's complement reduction to a signed 64-bit integer. *)
Definition wrap64 (z : Z) : Z := (z + 2 ^ 63) mod 2 ^ 64 - 2 ^ 63.

(** [torch.int32] and [torch.int64], the dtypes of id tensors. *)
Inductive dtype : Type := int32 | int64.

(** [x << 32] on an element of a tensor of the given dtype, computed in
    that dtype without a cast: on int64 the bits shifted past bit 63 are
    lost; on int32 the shift is by the whole width and leaves 0. *)
Definition shl32 (dt : dtype) (x : Z) : Z :=
  match dt with
  | int64 => wrap64 (Z.shiftl x 32)
  | int32 => 0
  end.

(** Shape rule of an elementwise binary operation on 1-D tensors: equal
    lengths, or one operand of length one is broadcast; anything else
    raises. *)
Definition broadcast2 (f : Z → Z → Z) (a b : tensor) : result tensor :=
  if (length a =? length b)%nat then Ok (zip_with f a b)
  else match a, b with
       | [x], _ => Ok (map (f x) b)
       | _, [y] => Ok (map (λ x, f x y) a)
       | _, _ => Err RuntimeError
       end.

(** [s << 32 | d], the expression both exclusion routines build, on
    tensors whose first operand has dtype [dt]. *)
Definition pack_key (dt : dtype) (s d : Z) : Z := Z.lor (shl32 dt s) d.

Definition pack_keys (dt : dtype) (src dst : tensor) : result tensor :=
  broadcast2 Z.lor (map (shl32 dt) src) dst.

(** [torch.index_select(t, dim=0, index=index)]: every index must lie in
    [0, len t). *)
Definition index_select (t index : tensor) : result tensor :=
  for_each (λ i, if (0 <=? i) && (i <? Z.of_nat (length t))
                 then match t !! Z.to_nat i with
                      | Some x => Ok x
                      | None => Err IndexError
                      end
                 else Err IndexError) index.

(** [t[index]] with a tensor index: indices in [-len t, len t), negative
    ones counted from the end. *)
Definition getitem (t index : tensor) : result tensor :=
  let n := Z.of_nat (length t) in
  for_each (λ i, if (- n <=? i) && (i <? n)
                 then match t !! Z.to_nat (if i <? 0 then i + n else i) with
                      | Some x => Ok x
                      | None => Err IndexError
                      end
                 else Err IndexError) index.

(** [torch.nonzero(mask, as_tuple=True)[0]]: the positions holding [True],
    in increasing order. *)
Fixpoint nonzero_from (i : Z) (mask : list bool) : tensor :=
  match mask with
  | [] => []
  | b :: mask' =>
      if b then i :: nonzero_from (i + 1) mask' else nonzero_from (i + 1) mask'
  end.

Definition nonzero (mask : list bool) : tensor := nonzero_from 0 mask.

(** [torch.searchsorted(sorted_sequence, values)] (left side): for each
    value a lower-bound binary search over [sorted_sequence],
    [while start < end: mid = start + ((end - start) >> 1);
       if not (bd[mid] >= val): start = mid + 1 else: end = mid].
    Every turn of the loop shrinks [end - start], so [end - start] turns
    always suffice; [lower_bound] passes the length of the sequence. *)
Fixpoint lower_bound_loop (fuel : nat) (bd : tensor) (val : Z) (start end_ : nat) : nat :=
  match fuel with
  | O => start
  | S fuel' =>
      if (start <? end_)%nat then
        let mid := (start + Nat.shiftr (end_ - start) 1)%nat in
        if negb (val <=? bd !!! mid)
        then lower_bound_loop fuel' bd val (mid + 1)%nat end_
        else lower_bound_loop fuel' bd val start mid
      else start
  end.

Definition lower_bound (bd : tensor) (val : Z) : Z :=
  Z.of_nat (lower_bound_loop (length bd) bd val 0%nat (length bd)).

Definition searchsorted (sorted_sequence values : tensor) : tensor :=
  map (lower_bound sorted_sequence) values.

(** ** Python dictionaries that are iterated over

    Keys are unique and [items] yields them in insertion order;
    [d[k] = v] overwrites in place or appends. *)

Abbreviation dict V := (list (string * V)).

Definition dict_keys {V : Type} (d : dict V) : list string := d.*1.

Fixpoint dict_get {V : Type} (d : dict V) (k : string) : option V :=
  match d with
  | [] => None
  | (k', v) :: d' => if decide (k' = k) then Some v else dict_get d' k
  end.

Fixpoint dict_set {V : Type} (d : dict V) (k : string) (v : V) : dict V :=
  match d with
  | [] => [(k, v)]
  | (k', v') :: d' =>
      if decide (k' = k) then (k, v) :: d' else (k', v') :: dict_set d' k v
  end.

(** [for k, v in items: ret[k] = body(k, v)], started from [ret]. *)
Fixpoint dict_for {A B : Type} (body : string → A → result B)
    (items : dict A) (ret : dict B) : result (dict B) :=
  match items with
  | [] => Ok ret
  | (k, v) :: items' => r ← body k v; dict_for body items' (dict_set ret k r)
  end.

(** ** Data model *)

(** [CSCFormatBase] of [dgl.graphbolt.base]: a dataclass with the two
    tensor fields the module reads. *)
Record CSCFormatBase : Type := mkCSC { indptr : tensor; indices : tensor }.

(** A field that is [None], a single value, or a dictionary of values keyed
    by edge type. *)
Inductive py_field (A : Type) : Type :=
| PNone
| POne (a : A)
| PDict (d : dict A).
Arguments PNone {A}.
Arguments POne {A} a.
Arguments PDict {A} d.

(** The node-id fields: [None], a tensor, or a dictionary keyed by node
    type (only ever read with [.get]). *)
Inductive ids_field : Type :=
| IdsNone
| IdsOne (t : tensor)
| IdsDict (m : gmap string tensor).

(** The four fields of a sampled subgraph, in the order in which the tuple
    returned by [_slice_subgraph] is passed to the constructor
    [calling_class]. *)
Record SampledSubgraph : Type := mkSubgraph {
  sampled_csc : py_field CSCFormatBase;
  original_column_node_ids : ids_field;
  original_row_node_ids : ids_field;
  original_edge_ids : py_field tensor
}.

(** Edges to exclude for one relation: a pair of tensors or a table with
    one row per edge. *)
Inductive edge_list : Type :=
| EdgePair (src dst : tensor)
| EdgeTable (rows : list (Z * Z)).

(** The [edges] argument: one edge list, or a dictionary keyed by edge
    type. *)
Inductive edges_arg : Type :=
| EdgesHomo (e : edge_list)
| EdgesHetero (m : gmap string edge_list).

(** The [index] argument of [_slice_subgraph]. *)
Inductive py_index : Type :=
| INone
| ITensor (t : tensor)
| IDict (d : dict (option tensor)).

(** ** Helpers of [dgl.graphbolt.base] *)

(** [indptr.diff()]: the number of edges of each column. *)
Fixpoint indptr_diff (indptr : tensor) : list Z :=
  match indptr with
  | a :: (b :: _) as rest => (b - a) :: indptr_diff rest
  | _ => []
  end.

(** [torch.arange(n)] *)
Definition arange (n : nat) : tensor := map Z.of_nat (seq 0 n).

(** The id of column [j] repeated once per edge of column [j]. *)
Definition expand (ids : tensor) (indptr : tensor) : tensor :=
  concat (zip_with (λ id cnt, replicate (Z.to_nat cnt) id) ids (indptr_diff indptr)).

(** Modelled from the spec: [expand_indptr] of [dgl.graphbolt.base], whose
    source is not available.  It expands [indptr] so that each edge
    inherits the id of its owning column: column [j]'s id, which is
    [node_ids[j]] when [node_ids] is given and [j] itself otherwise, is
    repeated [indptr[j+1] - indptr[j]] times.  The [dtype] argument is
    dropped (every tensor here is int64) and so is the [output_size] hint. *)
Definition expand_indptr (indptr : tensor) (node_ids : option tensor) : tensor :=
  expand (match node_ids with
          | Some ids => ids
          | None => arange (length indptr - 1)
          end) indptr.

(** Modelled from the spec: [isin] of [dgl.graphbolt.base], whose source
    is not available.  It is the membership test: the element at each
    position of [elements] is marked iff it equals some element of
    [test_elements]. *)
Definition isin (elements test_elements : tensor) : list bool :=
  map (λ x, bool_decide (x ∈ test_elements)) elements.

(** A splitter of edge-type strings such as ["A:relation:B"], an instance
    of [etype_str_to_tuple] for the examples: it cuts at the first two
    colons. *)
Fixpoint split_once (s : string) : option (string * string) :=
  match s with
  | EmptyString => None
  | String c s' =>
      if decide (c = ":"%char) then Some (EmptyString, s')
      else '(a, b) ← split_once s'; Some (String c a, b)
  end.

Definition split_etype (etype : string) : option (string * string * string) :=
  '(a, rest) ← split_once etype;
  '(r, b) ← split_once rest;
  Some (a, r, b).

(** ** The module's functions *)

(** [_to_reverse_ids(node_pair, original_row_node_ids,
    original_column_node_ids)].  Handing a dictionary where a tensor is
    expected makes the torch call raise. *)
Definition _to_reverse_ids (node_pair : CSCFormatBase)
    (original_row_node_ids original_column_node_ids : ids_field)
    : result (tensor * tensor) :=
  let indptr0 := indptr node_pair in
  let indices0 := indices node_pair in
  indices1 ← match original_row_node_ids with
             | IdsNone => Ok indices0
             | IdsOne row_ids => index_select row_ids indices0
             | IdsDict _ => Err TypeError
             end;
  indptr1 ← match original_column_node_ids with
            | IdsNone => Ok (expand_indptr indptr0 None)
            | IdsOne col_ids => Ok (expand_indptr indptr0 (Some col_ids))
            | IdsDict _ => Err TypeError
            end;
  Ok (indices1, indptr1).

(** [torch.unique(t, return_inverse=True)]: the distinct values of [t] in
    increasing order, and for each element of [t] its position among
    them. *)
Definition unique_values (t : tensor) : tensor := merge_sort Z.le (remove_dups t).

Fixpoint index_of (x : Z) (l : tensor) : Z :=
  match l with
  | [] => 0
  | y :: l' => if decide (y = x) then 0 else 1 + index_of x l'
  end.

Definition unique_inverse (t : tensor) : tensor * tensor :=
  let output := unique_values t in
  (output, map (λ x, index_of x output) t).

(** [_relabel_two_arrays(lhs_array, rhs_array)] *)
Definition _relabel_two_arrays (lhs_array rhs_array : tensor) : tensor * tensor :=
  let concated := lhs_array ++ rhs_array in
  let '(_, mapping) := unique_inverse concated in
  (take (length lhs_array) mapping, drop (length lhs_array) mapping).

Definition not_supported : string := "Values out of range int32 are not supported yet".

(** [_exclude_homo_edges(edges, edges_to_exclude,
    assume_num_node_within_int32)], on [edges] of dtype [ids_dtype] and
    [edges_to_exclude] of dtype [edges_dtype]. *)
Definition _exclude_homo_edges (ids_dtype edges_dtype : dtype)
    (edges edges_to_exclude : tensor * tensor)
    (assume_num_node_within_int32 : bool) : result tensor :=
  '(val, val_to_exclude) ←
    (if assume_num_node_within_int32 then
       val ← pack_keys ids_dtype edges.1 edges.2;
       val_to_exclude ← pack_keys edges_dtype edges_to_exclude.1 edges_to_exclude.2;
       Ok (val, val_to_exclude)
     else Err (NotImplementedError not_supported));
  let mask := map negb (isin val val_to_exclude) in
  Ok (nonzero mask).

(** [_exclude_homo_edges_2]: the same with [edges_to_exclude] a table whose
    transpose supplies the two columns. *)
Definition _exclude_homo_edges_2 (ids_dtype edges_dtype : dtype)
    (edges : tensor * tensor) (edges_to_exclude : list (Z * Z))
    (assume_num_node_within_int32 : bool) : result tensor :=
  '(val, val_to_exclude) ←
    (if assume_num_node_within_int32 then
       val ← pack_keys ids_dtype edges.1 edges.2;
       let edges_to_exclude_trans := (edges_to_exclude.*1, edges_to_exclude.*2) in
       val_to_exclude ←
         pack_keys edges_dtype edges_to_exclude_trans.1 edges_to_exclude_trans.2;
       Ok (val, val_to_exclude)
     else Err (NotImplementedError not_supported));
  let mask := map negb (isin val val_to_exclude) in
  Ok (nonzero mask).

(** The two leaf cases of [_index_select] inside [_slice_subgraph]. *)
Definition select_csc (obj : CSCFormatBase) (index : tensor) : result CSCFormatBase :=
  new_indices ← getitem (indices obj) index;
  let new_indptr := searchsorted index (indptr obj) in
  Ok {| indptr := new_indptr; indices := new_indices |}.

Definition select_tensor (obj index : tensor) : result tensor := getitem obj index.

(** [_index_select(v, index[k])] on a value [v] of a dictionary. *)
Definition _index_select_leaf {A : Type} (sel : A → tensor → result A)
    (obj : A) (index : option tensor) : result A :=
  match index with
  | None => Ok obj
  | Some i => sel obj i
  end.

Definition index_getitem (index : dict (option tensor)) (k : string)
    : result (option tensor) :=
  match dict_get index k with
  | Some i => Ok i
  | None => Err (KeyError k)
  end.

(** [_index_select(obj, index)]; [sel] is the leaf case selected by the
    [isinstance] tests ([select_csc] or [select_tensor]). *)
Definition _index_select {A : Type} (sel : A → tensor → result A)
    (obj : py_field A) (index : py_index) : result (py_field A) :=
  match obj, index with
  | PNone, _ => Ok PNone
  | _, INone => Ok obj
  | POne a, ITensor i => POne <$> sel a i
  | POne a, IDict _ => Err TypeError
  | PDict d, ITensor _ => Err (AssertionError "")
  | PDict d, IDict index =>
      PDict <$> dict_for (λ k v, i ← index_getitem index k;
                                 _index_select_leaf sel v i) d []
  end.

(** [_slice_subgraph(subgraph, index)] *)
Definition _slice_subgraph (subgraph : SampledSubgraph) (index : py_index)
    : result (py_field CSCFormatBase * ids_field * ids_field * py_field tensor) :=
  csc ← _index_select select_csc (sampled_csc subgraph) index;
  eids ← _index_select select_tensor (original_edge_ids subgraph) index;
  Ok (csc, original_column_node_ids subgraph, original_row_node_ids subgraph, eids).

(** [calling_class(...)] applied to the sliced fields. *)
Definition calling_class
    (args : py_field CSCFormatBase * ids_field * ids_field * py_field tensor)
    : SampledSubgraph :=
  let '(csc, col_ids, row_ids, eids) := args in mkSubgraph csc col_ids row_ids eids.

Definition msg_int32 : string := "Values > int32 are not supported yet.".
Definition msg_homogeneity : string :=
  "The sampled subgraph and the edges to exclude should be both homogeneous or both heterogeneous.".

(** [isinstance(self.sampled_csc, (CSCFormatBase, tuple))] *)
Definition is_single_csc (f : py_field CSCFormatBase) : bool :=
  match f with POne _ => true | _ => false end.

(** [isinstance(edges, (tuple, torch.Tensor))] *)
Definition is_single_edges (e : edges_arg) : bool :=
  match e with EdgesHomo _ => true | EdgesHetero _ => false end.

(** [None if f is None else f.get(key)] on a node-id field. *)
Definition ids_get (f : ids_field) (key : string) : result ids_field :=
  match f with
  | IdsNone => Ok IdsNone
  | IdsDict m => Ok (match m !! key with Some t => IdsOne t | None => IdsNone end)
  | IdsOne _ => Err AttributeError
  end.

(** The [if isinstance(edges, torch.Tensor) ... else ...] dispatch. *)
Definition exclude_dispatch (ids_dtype edges_dtype : dtype)
    (reverse_edges : tensor * tensor) (e : edge_list)
    (assume_num_node_within_int32 : bool) : result tensor :=
  match e with
  | EdgeTable rows =>
      _exclude_homo_edges_2 ids_dtype edges_dtype reverse_edges rows
        assume_num_node_within_int32
  | EdgePair src dst =>
      _exclude_homo_edges ids_dtype edges_dtype reverse_edges (src, dst)
        assume_num_node_within_int32
  end.

Section exclude_edges.

(** [etype_str_to_tuple] lives in [dgl.graphbolt.base] and its source is
    not available; the development is parametric in it.  It yields the
    (source type, relation, destination type) triple of an edge type, or
    [None] when it rejects the string, which surfaces as [EtypeError]. *)
Variable etype_str_to_tuple : string → option (string * string * string).

(** The dtype of the id tensors of the subgraph and that of the tensors of
    [edges], each taken to be the same for every relation of a call. *)
Variables ids_dtype edges_dtype : dtype.

Definition etype_tuple (etype : string) : result (string * string * string) :=
  match etype_str_to_tuple etype with
  | Some t => Ok t
  | None => Err (EtypeError etype)
  end.

(** The body of the loop over [self.sampled_csc.items()]: the entry
    stored under [index[etype]]. *)
Definition exclude_relation (self : SampledSubgraph) (edges : gmap string edge_list)
    (assume_num_node_within_int32 : bool) (etype : string) (pair : CSCFormatBase)
    : result (option tensor) :=
  match edges !! etype with
  | None => Ok None
  | Some edges_etype =>
      '(src_type, _, dst_type) ← etype_tuple etype;
      original_row_node_ids ← ids_get (original_row_node_ids self) src_type;
      original_column_node_ids ← ids_get (original_column_node_ids self) dst_type;
      reverse_edges ← _to_reverse_ids pair original_row_node_ids original_column_node_ids;
      Some <$> exclude_dispatch ids_dtype edges_dtype reverse_edges edges_etype
                 assume_num_node_within_int32
  end.

(** [SampledSubgraph.exclude_edges(self, edges,
    assume_num_node_within_int32)] *)
Definition exclude_edges (self : SampledSubgraph) (edges : edges_arg)
    (assume_num_node_within_int32 : bool) : result SampledSubgraph :=
  _ ← py_assert assume_num_node_within_int32 msg_int32;
  _ ← py_assert (bool_decide (is_single_csc (sampled_csc self) = is_single_edges edges))
        msg_homogeneity;
  match sampled_csc self with
  | POne csc =>
      reverse_edges ← _to_reverse_ids csc (original_row_node_ids self)
                        (original_column_node_ids self);
      index ← match edges with
              | EdgesHomo e =>
                  exclude_dispatch ids_dtype edges_dtype reverse_edges e
                    assume_num_node_within_int32
              | EdgesHetero _ => Err (KeyError "0")
              end;
      calling_class <$> _slice_subgraph self (ITensor index)
  | PDict d =>
      match edges with
      | EdgesHetero m =>
          index ← dict_for (exclude_relation self m assume_num_node_within_int32) d [];
          calling_class <$> _slice_subgraph self (IDict index)
      | EdgesHomo _ => Err TypeError
      end
  | PNone => Err AttributeError
  end.

End exclude_edges.

(** ** Specification vocabulary *)

(** The invariant of a CSC structure: [indptr] is non-decreasing, starts at
    0 and ends at the number of edges. *)
Definition valid_csc (c : CSCFormatBase) : Prop :=
  Sorted Z.le (indptr c)
  ∧ head (indptr c) = Some 0
  ∧ last (indptr c) = Some (Z.of_nat (length (indices c))).

(** A retain-index: ascending edge positions of a structure with [n]
    edges. *)
Definition retain_index (n : nat) (index : tensor) : Prop :=
  StronglySorted Z.le index ∧ Forall (λ i, 0 ≤ i < Z.of_nat n) index.

(** [ys] is [t] gathered at [index]. *)
Definition gathered (t index ys : tensor) : Prop :=
  Forall2 (λ i y, t !! Z.to_nat i = Some y) index ys.

(** The number of entries of [l] strictly below [v]. *)
Definition count_lt (l : tensor) (v : Z) : Z :=
  Z.of_nat (length (filter (λ x, x < v) l)).

(** A field of valid structures. *)
Definition valid_field (f : py_field CSCFormatBase) : Prop :=
  match f with
  | PNone => True
  | POne c => valid_csc c
  | PDict d => Forall (λ kv, valid_csc kv.2) d
  end.

(** The keys of a dictionary field are pairwise distinct. *)
Definition unique_keys {A : Type} (f : py_field A) : Prop :=
  match f with
  | PDict d => NoDup (dict_keys d)
  | _ => True
  end.

(** The entry of a dictionary field under a key. *)
Definition field_get {A : Type} (f : py_field A) (k : string) : option A :=
  match f with
  | PDict d => dict_get d k
  | _ => None
  end.

(** Two fields of the same shape whose values are related by [R], key by
    key for dictionaries. *)
Definition field_rel {A : Type} (R : A → A → Prop) (f f' : py_field A) : Prop :=
  match f, f' with
  | PNone, PNone => True
  | POne a, POne a' => R a a'
  | PDict d, PDict d' =>
      ∀ k, match dict_get d k, dict_get d' k with
           | Some a, Some a' => R a a'
           | None, None => True
           | _, _ => False
           end
  | _, _ => False
  end.

(** [c'] is a valid structure with as many columns as [c]. *)
Definition same_columns_valid (c c' : CSCFormatBase) : Prop :=
  valid_csc c' ∧ length (indptr c') = length (indptr c).

(** A subgraph with one column, of original id 2^32, and one edge into it
    from row 0. *)
Definition wide_csc : CSCFormatBase := mkCSC [0; 1] [0].

Definition wide_subgraph : SampledSubgraph :=
  mkSubgraph (POne wide_csc) (IdsOne [2 ^ 32]) IdsNone PNone.

(** The packed keys of an exclusion list, and those of the sampled edges
    of a structure once resolved to original ids. *)
Definition edge_keys (edges_dtype : dtype) (e : edge_list) : tensor :=
  match e with
  | EdgePair src dst => zip_with (pack_key edges_dtype) src dst
  | EdgeTable rows => zip_with (pack_key edges_dtype) rows.*1 rows.*2
  end.

Definition sampled_keys (ids_dtype : dtype) (c : CSCFormatBase)
    (row_map column_map : ids_field) : tensor :=
  match _to_reverse_ids c row_map column_map with
  | Ok (src, dst) => zip_with (pack_key ids_dtype) src dst
  | Err _ => []
  end.

(** No key of the exclusion list is the key of a sampled edge. *)
Definition unmatched (ids_dtype edges_dtype : dtype) (c : CSCFormatBase)
    (row_map column_map : ids_field) (e : edge_list) : Prop :=
  Forall (λ k, k ∉ edge_keys edges_dtype e)
    (sampled_keys ids_dtype c row_map column_map).

(** A pair of exclusion tensors has two sides of equal length. *)
Definition edge_list_wf (e : edge_list) : Prop :=
  match e with
  | EdgePair src dst => length src = length dst
  | EdgeTable _ => True
  end.

(** The subgraph of the docstring of [exclude_edges], the edges it
    excludes, and the homogeneous subgraph with the same contents. *)
Definition doc_csc : CSCFormatBase := mkCSC [0; 1; 2; 3] [0; 1; 2].

Definition doc_subgraph : SampledSubgraph :=
  mkSubgraph (PDict [("A:relation:B"%string, doc_csc)])
    (IdsDict {[ "B"%string := [10; 11; 12] ]})
    (IdsDict {[ "A"%string := [13; 14; 15] ]})
    (PDict [("A:relation:B"%string, [19; 20; 21])]).

Definition doc_edges : edges_arg :=
  EdgesHetero {[ "A:relation:B"%string := EdgePair [14; 15] [11; 12] ]}.

Definition doc_result : SampledSubgraph :=
  mkSubgraph (PDict [("A:relation:B"%string, mkCSC [0; 1; 1; 1] [0])])
    (IdsDict {[ "B"%string := [10; 11; 12] ]})
    (IdsDict {[ "A"%string := [13; 14; 15] ]})
    (PDict [("A:relation:B"%string, [19])]).

Definition doc_homo_subgraph : SampledSubgraph :=
  mkSubgraph (POne doc_csc) (IdsOne [10; 11; 12]) (IdsOne [13; 14; 15])
    (POne [19; 20; 21]).

(** What the resolver is given: a row map that resolves every row index
    and a column map with one entry per column. *)
Definition rows_resolve (row_map : ids_field) (c : CSCFormatBase) : Prop :=
  match row_map with
  | IdsNone => True
  | IdsOne t => Forall (λ x, 0 ≤ x < Z.of_nat (length t)) (indices c)
  | IdsDict _ => False
  end.

Definition columns_labelled (column_map : ids_field) (c : CSCFormatBase) : Prop :=
  match column_map with
  | IdsNone => True
  | IdsOne t => length t = (length (indptr c) - 1)%nat
  | IdsDict _ => False
  end.

(** The ids of the columns in order: the column map, or the column
    numbers themselves. *)
Definition column_ids (column_map : ids_field) (c : CSCFormatBase) : tensor :=
  match column_map with
  | IdsOne t => t
  | _ => arange (length (indptr c) - 1)
  end.

(** The original id of a local row id and of a column. *)
Definition row_id (row_map : ids_field) (x : Z) : option Z :=
  match row_map with
  | IdsNone => Some x
  | IdsOne t => t !! Z.to_nat x
  | IdsDict _ => None
  end.

Definition column_id (column_map : ids_field) (j : nat) : option Z :=
  match column_map with
  | IdsNone => Some (Z.of_nat j)
  | IdsOne t => t !! j
  | IdsDict _ => None
  end.

(** Column [j] owns edge position [i]: [indptr[j] <= i < indptr[j+1]]. *)
Definition owns (c : CSCFormatBase) (j i : nat) : Prop :=
  ∃ a b, indptr c !! j = Some a ∧ indptr c !! S j = Some b ∧ a ≤ Z.of_nat i < b.

(** The contract of the resolver: [r] holds two sequences as long as
    [indices]; the first gives the original id of every row index, the
    second the original id of the column owning every edge. *)
Definition resolved (c : CSCFormatBase) (row_map column_map : ids_field)
    (r : result (tensor * tensor)) : Prop :=
  ∃ orig_src orig_dst,
    r = Ok (orig_src, orig_dst)
    ∧ length orig_src = length (indices c)
    ∧ length orig_dst = length (indices c)
    ∧ (∀ i x, indices c !! i = Some x →
         is_Some (orig_src !! i) ∧ orig_src !! i = row_id row_map x)
    ∧ (∀ i j, owns c j i →
         is_Some (orig_dst !! i) ∧ orig_dst !! i = column_id column_map j).

(** The edge-id array, when there is one, is aligned with [indices]. *)
Definition edge_ids_aligned (n : nat) (eids : py_field tensor) : Prop :=
  match eids with
  | PNone => True
  | POne t => length t = n
  | PDict _ => False
  end.

(** The contract of the slicer on a homogeneous subgraph with structure
    [c]: [indices] and the edge ids are gathered at [index], every column
    boundary becomes the number of retained positions below it, and the
    node-id maps are handed on. *)
Definition sliced (g : SampledSubgraph) (c : CSCFormatBase) (index : tensor)
    (r : result (py_field CSCFormatBase * ids_field * ids_field * py_field tensor))
    : Prop :=
  ∃ new_indices new_eids,
    r = Ok (POne (mkCSC (map (count_lt index) (indptr c)) new_indices),
            original_column_node_ids g, original_row_node_ids g, new_eids)
    ∧ gathered (indices c) index new_indices
    ∧ match original_edge_ids g, new_eids with
      | PNone, PNone => True
      | POne t, POne t' => gathered t index t'
      | _, _ => False
      end.

(** The [index] entry of a relation in such a call. *)
Definition kept_all (m : gmap string edge_list) (etype : string) (c : CSCFormatBase)
    : option tensor :=
  match m !! etype with
  | Some _ => Some (arange (length (indices c)))
  | None => None
  end.

(** A well-formed call whose exclusion set matches no sampled edge.  For
    a homogeneous subgraph the structure is valid, the maps fit it, and
    no key of [edges] is the key of a sampled edge; for a heterogeneous
    one the same holds of every relation that [edges] names, and the
    edge-id dictionary has no key foreign to the subgraph. *)
Definition ignorable (etype_str_to_tuple : string → option (string * string * string))
    (ids_dtype edges_dtype : dtype) (g : SampledSubgraph) (edges : edges_arg) : Prop :=
  match sampled_csc g, edges with
  | POne c, EdgesHomo e =>
      valid_csc c
      ∧ rows_resolve (original_row_node_ids g) c
      ∧ columns_labelled (original_column_node_ids g) c
      ∧ edge_ids_aligned (length (indices c)) (original_edge_ids g)
      ∧ edge_list_wf e
      ∧ unmatched ids_dtype edges_dtype c (original_row_node_ids g)
          (original_column_node_ids g) e
  | PDict d, EdgesHetero m =>
      NoDup (dict_keys d)
      ∧ match original_edge_ids g with
        | PNone => True
        | POne _ => False
        | PDict de => NoDup (dict_keys de) ∧ dict_keys de ⊆ dict_keys d
        end
      ∧ ∀ etype c e,
          dict_get d etype = Some c → m !! etype = Some e →
          ∃ src_type rel dst_type row_map column_map,
            etype_str_to_tuple etype = Some (src_type, rel, dst_type)
            ∧ ids_get (original_row_node_ids g) src_type = Ok row_map
            ∧ ids_get (original_column_node_ids g) dst_type = Ok column_map
            ∧ valid_csc c
            ∧ rows_resolve row_map c
            ∧ columns_labelled column_map c
            ∧ (∀ t, field_get (original_edge_ids g) etype = Some t →
                    length t = length (indices c))
            ∧ edge_list_wf e
            ∧ unmatched ids_dtype edges_dtype c row_map column_map e
  | _, _ => False
  end.

(** The exceptions raised below the two guards of [exclude_edges]: anything
    but [NotImplementedError], and no assertion with a message. *)
Definition inner_error (e : error) : Prop :=
  match e with
  | AssertionError msg => msg = EmptyString
  | NotImplementedError _ => False
  | _ => True
  end.

Definition only_inner {A : Type} (r : result A) : Prop :=
  ∀ e, r = Err e → inner_error e.

(** The entries of [l] at the positions where [mask] holds. *)
Fixpoint select_mask {A : Type} (l : list A) (mask : list bool) : list A :=
  match l, mask with
  | x :: l', b :: mask' =>
      if b then x :: select_mask l' mask' else select_mask l' mask'
  | _, _ => []
  end.

(** The edge ids of a homogeneous subgraph before and after a call, set
    against the resolved edges [edges] and [edges']: the triples (src, dst,
    edge id) that survive are those whose pair satisfies [keep]. *)
Definition edge_ids_follow (keep : Z * Z → Prop) `{!∀ p, Decision (keep p)}
    (edges edges' : list (Z * Z)) (eids eids' : py_field tensor) : Prop :=
  match eids, eids' with
  | PNone, PNone => True
  | POne t, POne t' => zip edges' t' = filter (λ x, keep x.1) (zip edges t)
  | _, _ => False
  end.

(** The (src, dst) pairs an exclusion list stands for. *)
Definition edge_pairs (e : edge_list) : list (Z * Z) :=
  match e with
  | EdgePair src dst => zip src dst
  | EdgeTable rows => rows
  end.

(** Two fields of the same shape: both [None], both a single value, or
    dictionaries with the same keys in the same order. *)
Definition same_shape {A : Type} (f f' : py_field A) : Prop :=
  match f, f' with
  | PNone, PNone => True
  | POne _, POne _ => True
  | PDict d, PDict d' => dict_keys d' = dict_keys d
  | _, _ => False
  end.

(** One relation of a heterogeneous subgraph seen as a homogeneous
    subgraph: its structure [c], the node-id maps of its two node types,
    and its edge ids [eids] if it has any. *)
Definition relation_eids (eids : py_field tensor) (etype : string) : py_field tensor :=
  match field_get eids etype with
  | Some t => POne t
  | None => PNone
  end.

Definition relation_view (c : CSCFormatBase) (column_map row_map : ids_field)
    (eids : py_field tensor) (etype : string) : SampledSubgraph :=
  mkSubgraph (POne c) column_map row_map (relation_eids eids etype).

(** Whether the engine keeps a sampled pair against an exclusion list:
    its packed key is none of the list's keys. *)
Definition keeps (ids_dtype edges_dtype : dtype) (e : edge_list) (p : Z * Z) : bool :=
  negb (bool_decide (pack_key ids_dtype p.1 p.2 ∈ edge_keys edges_dtype e)).

(** The homogeneous subgraph [g], of structure [c], cut down to the edge
    positions where [mask] holds. *)
Definition masked (g : SampledSubgraph) (c : CSCFormatBase) (mask : list bool)
    : SampledSubgraph :=
  mkSubgraph
    (POne (mkCSC (map (count_lt (nonzero mask)) (indptr c))
             (select_mask (indices c) mask)))
    (original_column_node_ids g) (original_row_node_ids g)
    (match original_edge_ids g with
     | POne t => POne (select_mask t mask)
     | eids => eids
     end).

(** The docstring subgraph with its edge ids filed under a relation it
    does not have. *)
Definition misfiled_subgraph : SampledSubgraph :=
  mkSubgraph (PDict [("A:relation:B"%string, doc_csc)])
    (IdsDict {[ "B"%string := [10; 11; 12] ]})
    (IdsDict {[ "A"%string := [13; 14; 15] ]})
    (PDict [("B:relation:A"%string, [19; 20; 21])]).

(** Identifiers that fit in 32 bits. *)
Definition id32 (x : Z) : Prop := 0 ≤ x < 2 ^ 32.

(** The contract of the exclusion engine: [r] is the increasing sequence of
    the positions whose (src, dst) pair is not an excluded pair. *)
Definition exact_removal (src dst ex_src ex_dst : tensor) (r : result tensor) : Prop :=
  ∃ index, r = Ok index
    ∧ StronglySorted Z.lt index
    ∧ ∀ i, i ∈ index ↔
        0 ≤ i ∧ ∃ s d, src !! Z.to_nat i = Some s ∧ dst !! Z.to_nat i = Some d
                       ∧ (s, d) ∉ zip ex_src ex_dst.

(** ** The result monad and the torch operations *)

(** Case analysis on the first statement of a sequence known to succeed. *)
Ltac step_bind H :=
  match type of H with
  | (?r ≫= _) = Ok _ =>
      let a := fresh "a" in
      let E := fresh "E" in
      destruct r as [a|] eqn:E; simpl in H; [|discriminate H]
  end.

Lemma for_each_Ok {A B : Type} (f : A → result B) (l : list A) (ys : list B) :
  for_each f l = Ok ys ↔ Forall2 (λ x y, f x = Ok y) l ys.
Proof.
  revert ys. induction l as [|x l IH]; intros ys; simpl.
  - split.
    + intros [= <-]. constructor.
    + intros H. inversion H. reflexivity.
  - destruct (f x) as [y|e] eqn:Hx; simpl.
    + destruct (for_each f l) as [ys'|e] eqn:Hl; simpl.
      * split.
        -- intros [= <-]. constructor; [done|]. by apply IH.
        -- intros H. inversion H as [|? y' ? ys'' Hy Hys]; subst.
           rewrite Hx in Hy. injection Hy as <-.
           apply IH in Hys. by injection Hys as <-.
      * split; [done|]. intros H. inversion H as [|? y' ? ys'' Hy Hys]; subst.
        apply IH in Hys. done.
    + split; [done|]. intros H. inversion H as [|? y' ? ys'' Hy Hys]; subst.
      rewrite Hx in Hy. done.
Qed.

Lemma for_each_length {A B : Type} (f : A → result B) (l : list A) (ys : list B) :
  for_each f l = Ok ys → length ys = length l.
Proof. intros H%for_each_Ok. symmetry. by eapply Forall2_length. Qed.

Lemma getitem_Ok (t index ys : tensor) :
  Forall (λ i, 0 ≤ i) index →
  getitem t index = Ok ys ↔ gathered t index ys.
Proof.
  intros Hpos. unfold getitem, gathered. cbv zeta. rewrite for_each_Ok.
  revert ys. induction Hpos as [|i index Hi Hpos IH]; intros ys.
  - split; intros H; inversion H; constructor.
  - split; intros H; inversion H as [|? y ? ys' Hy Hys]; subst; constructor;
      try (by apply IH).
    + destruct (i <? 0) eqn:Hneg; [lia|].
      destruct (_ && _); [|done].
      by destruct (t !! Z.to_nat i); simplify_eq.
    + destruct (i <? 0) eqn:Hneg; [lia|].
      pose proof (lookup_lt_Some _ _ _ Hy) as Hlt.
      rewrite Hy.
      replace ((- Z.of_nat (length t) <=? i) && (i <? Z.of_nat (length t)))
        with true; [done|].
      symmetry. apply andb_true_iff. split; [apply Z.leb_le|apply Z.ltb_lt]; lia.
Qed.

Lemma getitem_length (t index ys : tensor) :
  getitem t index = Ok ys → length ys = length index.
Proof. apply for_each_length. Qed.

Lemma getitem_in_range (t index ys : tensor) :
  getitem t index = Ok ys → Forall (λ i, i < Z.of_nat (length t)) index.
Proof.
  unfold getitem. cbv zeta. rewrite for_each_Ok. intros H.
  induction H as [|i y index ys Hy _ IH]; constructor; [|done].
  destruct (_ && _) eqn:Hb; [|done].
  apply andb_true_iff in Hb as [_ Hb]. by apply Z.ltb_lt in Hb.
Qed.

Lemma gathered_total (t index : tensor) :
  Forall (λ i, 0 ≤ i < Z.of_nat (length t)) index → ∃ ys, gathered t index ys.
Proof.
  induction 1 as [|i index Hi _ [ys IH]].
  - exists []. constructor.
  - destruct (lookup_lt_is_Some_2 t (Z.to_nat i)) as [y Hy]; [lia|].
    exists (y :: ys). by constructor.
Qed.

Lemma gathered_unique (t index ys ys' : tensor) :
  gathered t index ys → gathered t index ys' → ys = ys'.
Proof.
  intros H. revert ys'. induction H as [|i y index ys Hy _ IH]; intros ys' H';
    inversion H' as [|? y' ? ys'' Hy' Hys']; subst; [done|].
  f_equal; [congruence|by apply IH].
Qed.

Lemma index_select_Ok (t index ys : tensor) :
  index_select t index = Ok ys ↔ gathered t index ys ∧ Forall (λ i, 0 ≤ i) index.
Proof.
  unfold index_select, gathered. rewrite for_each_Ok. split.
  - intros H. induction H as [|i y index ys Hy _ [IH1 IH2]]; [by split; constructor|].
    destruct (_ && _) eqn:Hb; [|done].
    apply andb_true_iff in Hb as [Hb%Z.leb_le _].
    destruct (t !! Z.to_nat i) eqn:Hl; simplify_eq.
    split; constructor; done.
  - intros [H Hpos]. induction H as [|i y index ys Hy _ IH]; [constructor|].
    inversion Hpos; subst. constructor; [|by apply IH].
    pose proof (lookup_lt_Some _ _ _ Hy) as Hlt. rewrite Hy.
    replace ((0 <=? i) && (i <? Z.of_nat (length t))) with true; [done|].
    symmetry. apply andb_true_iff. split; [apply Z.leb_le|apply Z.ltb_lt]; lia.
Qed.

(** ** Packed keys *)

Lemma shl32_id32 (s : Z) :
  id32 s → shl32 int64 s = 2 ^ 32 * (if s <? 2 ^ 31 then s else s - 2 ^ 32).
Proof.
  unfold id32, shl32, wrap64. intros Hs.
  rewrite Z.shiftl_mul_pow2 by lia.
  destruct (s <? 2 ^ 31) eqn:Hlt.
  - apply Z.ltb_lt in Hlt. rewrite Z.mod_small; lia.
  - apply Z.ltb_ge in Hlt.
    replace (s * 2 ^ 32 + 2 ^ 63) with (s * 2 ^ 32 - 2 ^ 63 + 1 * 2 ^ 64) by lia.
    rewrite Z_mod_plus_full, Z.mod_small; lia.
Qed.

Lemma lor_high_low (k d : Z) :
  id32 d → Z.lor (2 ^ 32 * k) d = 2 ^ 32 * k + d.
Proof.
  intros Hd. unfold id32 in Hd.
  assert (Z.land (2 ^ 32 * k) d = 0) as Hland.
  { apply Z.bits_inj'. intros n Hn.
    rewrite Z.land_spec, Z.bits_0.
    destruct (Z.lt_ge_cases n 32) as [Hlow|Hhigh].
    - rewrite (Z.mul_comm _ k), Z.mul_pow2_bits_low by lia. done.
    - rewrite <- (Z.mod_small d (2 ^ 32)) by lia.
      rewrite Z.mod_pow2_bits_high by lia. apply andb_false_r. }
  rewrite <- Z.lxor_lor by done. symmetry. by apply Z.add_nocarry_lxor.
Qed.

Lemma pack_key_id32 (s d : Z) :
  id32 s → id32 d →
  pack_key int64 s d = 2 ^ 32 * (if s <? 2 ^ 31 then s else s - 2 ^ 32) + d.
Proof.
  intros Hs Hd. unfold pack_key. rewrite shl32_id32 by done.
  by apply lor_high_low.
Qed.

Lemma pack_key_inj (s1 d1 s2 d2 : Z) :
  id32 s1 → id32 d1 → id32 s2 → id32 d2 →
  pack_key int64 s1 d1 = pack_key int64 s2 d2 → s1 = s2 ∧ d1 = d2.
Proof.
  intros Hs1 Hd1 Hs2 Hd2. rewrite !pack_key_id32 by done.
  unfold id32 in *.
  destruct (s1 <? 2 ^ 31) eqn:H1; destruct (s2 <? 2 ^ 31) eqn:H2;
    [apply Z.ltb_lt in H1|apply Z.ltb_lt in H1|apply Z.ltb_ge in H1|apply Z.ltb_ge in H1];
    [apply Z.ltb_lt in H2|apply Z.ltb_ge in H2|apply Z.ltb_lt in H2|apply Z.ltb_ge in H2];
    lia.
Qed.

Lemma pack_keys_same_length (dt : dtype) (src dst : tensor) :
  length src = length dst →
  pack_keys dt src dst = Ok (zip_with (pack_key dt) src dst).
Proof.
  intros Hlen. unfold pack_keys, broadcast2.
  rewrite length_map, Hlen, Nat.eqb_refl. f_equal.
  revert dst Hlen. induction src as [|s src IH]; intros [|d dst] Hlen; simpl in *;
    try done. f_equal. apply IH. lia.
Qed.

Lemma elem_of_zip_with_pack_key (dt : dtype) (v : Z) (ex_src ex_dst : tensor) :
  v ∈ zip_with (pack_key dt) ex_src ex_dst ↔
  ∃ s d, (s, d) ∈ zip ex_src ex_dst ∧ v = pack_key dt s d.
Proof.
  revert ex_dst. induction ex_src as [|s ex_src IH]; intros [|d ex_dst]; simpl.
  - split; [by intros ?%elem_of_nil|by intros (?&?&?%elem_of_nil&_)].
  - split; [by intros ?%elem_of_nil|by intros (?&?&?%elem_of_nil&_)].
  - split; [by intros ?%elem_of_nil|by intros (?&?&?%elem_of_nil&_)].
  - rewrite elem_of_cons, IH. split.
    + intros [->|(s'&d'&Hin&->)].
      * exists s, d. split; [left|done].
      * exists s', d'. split; [by right|done].
    + intros (s'&d'&Hin&->). apply elem_of_cons in Hin as [[= -> ->]|Hin].
      * by left.
      * right. by exists s', d'.
Qed.

(** ** [nonzero] *)

Lemma nonzero_from_spec (a : Z) (mask : list bool) (i : Z) :
  i ∈ nonzero_from a mask ↔ a ≤ i ∧ mask !! Z.to_nat (i - a) = Some true.
Proof.
  revert a. induction mask as [|b mask IH]; intros a; simpl.
  - split; [by intros ?%elem_of_nil|by intros [_ ?]].
  - assert (i ∈ nonzero_from (a + 1) mask ↔
            a < i ∧ (b :: mask) !! Z.to_nat (i - a) = Some true) as Htail.
    { rewrite IH. split.
      - intros [Hle Hl]. split; [lia|].
        replace (Z.to_nat (i - a)) with (S (Z.to_nat (i - (a + 1)))) by lia. done.
      - intros [Hlt Hl]. split; [lia|].
        replace (Z.to_nat (i - a)) with (S (Z.to_nat (i - (a + 1)))) in Hl by lia.
        done. }
    destruct b.
    + rewrite elem_of_cons, Htail. split.
      * intros [->|[Hlt Hl]]; [|split; [lia|done]].
        split; [lia|]. by rewrite Z.sub_diag.
      * intros [Hle Hl]. destruct (decide (i = a)) as [->|Hne]; [by left|].
        right. split; [lia|done].
    + rewrite Htail. split.
      * intros [Hlt Hl]. split; [lia|done].
      * intros [Hle Hl]. split; [|done].
        destruct (decide (i = a)) as [->|Hne]; [|lia].
        by rewrite Z.sub_diag in Hl.
Qed.

Lemma nonzero_from_sorted (a : Z) (mask : list bool) :
  StronglySorted Z.lt (nonzero_from a mask).
Proof.
  revert a. induction mask as [|b mask IH]; intros a; simpl; [constructor|].
  destruct b; [|apply IH]. constructor; [apply IH|].
  apply Forall_forall. intros i [Hi _]%nonzero_from_spec. lia.
Qed.

Lemma nonzero_from_length (a : Z) (mask : list bool) :
  Forall (λ b, b = true) mask →
  nonzero_from a mask = map (λ n, a + Z.of_nat n) (seq 0 (length mask)).
Proof.
  intros Hall. revert a. induction Hall as [|b mask -> _ IH]; intros a; [done|].
  simpl. rewrite Z.add_0_r. f_equal. rewrite IH, <- seq_shift, <- list_fmap_compose.
  apply map_ext. intros n. simpl. lia.
Qed.

(** The positions kept by [~isin(val, val_to_exclude)]. *)
Lemma retained_keys_spec (val val_to_exclude : tensor) (i : Z) :
  i ∈ nonzero (map negb (isin val val_to_exclude)) ↔
  0 ≤ i ∧ ∃ v, val !! Z.to_nat i = Some v ∧ v ∉ val_to_exclude.
Proof.
  unfold nonzero, isin. rewrite nonzero_from_spec, Z.sub_0_r.
  apply and_iff_compat_l. rewrite !list_lookup_fmap.
  destruct (val !! Z.to_nat i) as [v|]; simpl.
  - split.
    + intros [= Hb]. exists v. split; [done|].
      apply negb_true_iff in Hb. by apply bool_decide_eq_false in Hb.
    + intros (v'&[= <-]&Hv). f_equal. apply negb_true_iff.
      by apply bool_decide_eq_false.
  - split; [done|]. by intros (?&?&_).
Qed.

(** ** The exclusion engine *)

Lemma exclude_homo_edges_keys (dt dt_ex : dtype) (src dst ex_src ex_dst : tensor) :
  length src = length dst → length ex_src = length ex_dst →
  _exclude_homo_edges dt dt_ex (src, dst) (ex_src, ex_dst) true
  = Ok (nonzero (map negb (isin (zip_with (pack_key dt) src dst)
                                (zip_with (pack_key dt_ex) ex_src ex_dst)))).
Proof.
  intros Hlen Hex. unfold _exclude_homo_edges. simpl.
  by rewrite !pack_keys_same_length.
Qed.

Lemma exclude_homo_edges_2_keys (dt dt_ex : dtype) (src dst : tensor)
    (rows : list (Z * Z)) :
  length src = length dst →
  _exclude_homo_edges_2 dt dt_ex (src, dst) rows true
  = Ok (nonzero (map negb (isin (zip_with (pack_key dt) src dst)
                                (zip_with (pack_key dt_ex) rows.*1 rows.*2)))).
Proof.
  intros Hlen. unfold _exclude_homo_edges_2. simpl.
  rewrite (pack_keys_same_length dt src dst) by done. simpl.
  rewrite (pack_keys_same_length dt_ex rows.*1 rows.*2) by (by rewrite !length_fmap).
  done.
Qed.

(** C1 (as amended): on int64 tensors, when the two endpoint sequences
    have equal length and every id, sampled or excluded, fits in 32 bits,
    [_exclude_homo_edges] returns exactly the increasing sequence of the
    positions [i] whose pair [(src[i], dst[i])] is not one of the excluded
    pairs. *)
Theorem exclude_homo_edges_exact (src dst ex_src ex_dst : tensor) :
  length src = length dst →
  length ex_src = length ex_dst →
  Forall id32 src → Forall id32 dst → Forall id32 ex_src → Forall id32 ex_dst →
  exact_removal src dst ex_src ex_dst
    (_exclude_homo_edges int64 int64 (src, dst) (ex_src, ex_dst) true).
Proof.
  intros Hlen Hex Hsrc Hdst Hxs Hxd.
  eexists. split; [by apply exclude_homo_edges_keys|].
  split; [apply nonzero_from_sorted|].
  intros i. rewrite retained_keys_spec. apply and_iff_compat_l.
  split.
  - intros (v&Hv&Hnot).
    apply lookup_zip_with_Some in Hv as (s&d&->&Hs&Hd).
    exists s, d. repeat split; try done.
    intros Hin. apply Hnot. apply elem_of_zip_with_pack_key. by exists s, d.
  - intros (s&d&Hs&Hd&Hnot). exists (pack_key int64 s d). split.
    + apply lookup_zip_with_Some. by exists s, d.
    + intros (s'&d'&Hin&Heq)%elem_of_zip_with_pack_key.
      pose proof (elem_of_zip_l _ _ _ _ Hin) as Hs'.
      pose proof (elem_of_zip_r _ _ _ _ Hin) as Hd'.
      rewrite Forall_forall in Hsrc, Hdst, Hxs, Hxd.
      apply pack_key_inj in Heq as [-> ->];
        eauto using list_elem_of_lookup_2.
Qed.

Lemma exclude_homo_edges_exact_witness :
  exact_removal [13; 14; 15] [10; 11; 12] [14; 15] [11; 12]
    (_exclude_homo_edges int64 int64 ([13; 14; 15], [10; 11; 12])
       ([14; 15], [11; 12]) true).
Proof.
  apply exclude_homo_edges_exact; try reflexivity;
    repeat constructor; unfold id32; lia.
Defined.

(** C1 as stated, for every id: it fails once a destination id needs more
    than 32 bits.  On int64 tensors the sampled edge (0, 2^32) is not the
    excluded pair (1, 0), yet both pack to the key 2^32 and position 0 is
    dropped. *)
Lemma exclude_homo_edges_exact_counterexample :
  ¬ exact_removal [0] [2 ^ 32] [1] [0]
      (_exclude_homo_edges int64 int64 ([0], [2 ^ 32]) ([1], [0]) true).
Proof.
  intros (index&Hr&_&Hspec).
  vm_compute in Hr. injection Hr as <-.
  destruct (Hspec 0) as [_ Hin].
  eapply elem_of_nil, Hin. split; [done|].
  exists 0, (2 ^ 32). repeat split.
  intros Hpair. apply elem_of_cons in Hpair as [Heq|Hpair]; [done|].
  by apply elem_of_nil in Hpair.
Qed.

(** On int32 tensors the shift leaves nothing of the source id and the key
    is the destination alone: against the single excluded pair (99, 11)
    the engine drops position 1, the edge (14, 11), which is no excluded
    pair, although every id is far below 2^31. *)
Lemma exclude_homo_edges_int32_slip :
  _exclude_homo_edges int32 int32 ([13; 14; 15], [10; 11; 12]) ([99], [11]) true
  = Ok [0; 2]
  ∧ ¬ exact_removal [13; 14; 15] [10; 11; 12] [99] [11]
        (_exclude_homo_edges int32 int32 ([13; 14; 15], [10; 11; 12])
           ([99], [11]) true).
Proof.
  split; [by vm_compute|].
  intros (index&Hr&_&Hspec).
  vm_compute in Hr. injection Hr as <-.
  destruct (Hspec 1) as [_ Hin].
  assert (1 ∈ [0; 2]) as Hmem.
  { apply Hin. split; [done|]. exists 14, 11. repeat split.
    intros Hpair. apply elem_of_cons in Hpair as [Heq|Hpair]; [done|].
    by apply elem_of_nil in Hpair. }
  apply elem_of_cons in Hmem as [Heq|Hmem]; [done|].
  apply elem_of_cons in Hmem as [Heq|Hmem]; [done|].
  by apply elem_of_nil in Hmem.
Qed.

(** ** [searchsorted] *)

Lemma StronglySorted_lookup {A : Type} (R : A → A → Prop) (l : list A) (i j : nat) (x y : A) :
  StronglySorted R l → (i < j)%nat → l !! i = Some x → l !! j = Some y → R x y.
Proof.
  intros Hs. revert i j. induction Hs as [|a l Hs IH Hall]; intros i j Hij Hi Hj.
  - done.
  - destruct j as [|j]; [lia|]. destruct i as [|i]; simpl in *.
    + injection Hi as <-. rewrite Forall_forall in Hall.
      apply Hall. by eapply list_elem_of_lookup_2.
    + apply (IH i j); [lia|done|done].
Qed.

Lemma half_lt (n : nat) : (0 < n → n / 2 < n)%nat.
Proof. intros Hn. apply Nat.div_lt; lia. Qed.

(** The loop never runs out of turns: any two budgets of at least
    [end_ - start] turns give the same answer. *)
Lemma lower_bound_loop_fuel (bd : tensor) (val : Z) (fuel fuel' start end_ : nat) :
  (end_ - start ≤ fuel)%nat → (end_ - start ≤ fuel')%nat →
  lower_bound_loop fuel bd val start end_ = lower_bound_loop fuel' bd val start end_.
Proof.
  revert fuel' start end_.
  induction fuel as [|fuel IH]; intros fuel' start end_ Hf Hf'.
  - destruct fuel'; simpl; [done|].
    destruct (start <? end_)%nat eqn:Hlt; [|done]. apply Nat.ltb_lt in Hlt. lia.
  - destruct fuel' as [|fuel']; simpl.
    + destruct (start <? end_)%nat eqn:Hlt; [|done]. apply Nat.ltb_lt in Hlt. lia.
    + destruct (start <? end_)%nat eqn:Hlt; [|done]. apply Nat.ltb_lt in Hlt.
      rewrite Nat.div2_div.
      pose proof (half_lt (end_ - start)) as Hhalf.
      set (h := ((end_ - start) / 2)%nat) in *. clearbody h.
      destruct (negb _); apply IH; lia.
Qed.

Lemma lower_bound_loop_spec (bd : tensor) (val : Z) (fuel start end_ : nat) :
  StronglySorted Z.le bd →
  (end_ - start ≤ fuel)%nat → (start ≤ end_ ≤ length bd)%nat →
  (∀ k x, (k < start)%nat → bd !! k = Some x → x < val) →
  (∀ k x, (end_ ≤ k)%nat → bd !! k = Some x → val ≤ x) →
  let r := lower_bound_loop fuel bd val start end_ in
  (r ≤ length bd)%nat
  ∧ (∀ k x, (k < r)%nat → bd !! k = Some x → x < val)
  ∧ (∀ k x, (r ≤ k)%nat → bd !! k = Some x → val ≤ x).
Proof.
  intros Hs. revert start end_.
  induction fuel as [|fuel IH]; intros start end_ Hf Hr Hlo Hhi; simpl.
  - assert (start = end_) as -> by lia. split; [lia|]. split; done.
  - destruct (start <? end_)%nat eqn:Hlt.
    + apply Nat.ltb_lt in Hlt.
      rewrite Nat.div2_div.
      pose proof (half_lt (end_ - start)) as Hhalf.
      set (mid := (start + (end_ - start) / 2)%nat).
      assert (start ≤ mid < end_)%nat as Hmid.
      { unfold mid. set (h := ((end_ - start) / 2)%nat) in *. clearbody h. lia. }
      clearbody mid.
      destruct (lookup_lt_is_Some_2 bd mid) as [m Hm]; [lia|].
      rewrite (list_lookup_total_correct _ _ _ Hm).
      destruct (val <=? m) eqn:Hcmp; simpl.
      * apply Z.leb_le in Hcmp. apply IH; [lia|lia|done|].
        intros k x Hk Hx. destruct (decide (k = mid)) as [->|Hne].
        -- by simplify_eq.
        -- pose proof (StronglySorted_lookup Z.le bd mid k m x Hs) as Hle.
           etrans; [exact Hcmp|]. apply Hle; [lia|done|done].
      * apply Z.leb_gt in Hcmp. apply IH; [lia|lia| |done].
        intros k x Hk Hx. destruct (decide (k = mid)) as [->|Hne].
        -- by simplify_eq.
        -- pose proof (StronglySorted_lookup Z.le bd k mid x m Hs) as Hle.
           eapply Z.le_lt_trans; [|exact Hcmp]. apply Hle; [lia|done|done].
    + apply Nat.ltb_ge in Hlt. assert (start = end_) as -> by lia.
      split; [lia|]. split; done.
Qed.

Lemma count_lt_split (bd : tensor) (v : Z) (r : nat) :
  (r ≤ length bd)%nat →
  (∀ k x, (k < r)%nat → bd !! k = Some x → x < v) →
  (∀ k x, (r ≤ k)%nat → bd !! k = Some x → v ≤ x) →
  count_lt bd v = Z.of_nat r.
Proof.
  unfold count_lt. intros Hr Hlo Hhi. f_equal.
  revert r Hr Hlo Hhi. induction bd as [|x bd IH]; intros r Hr Hlo Hhi; simpl in *.
  - lia.
  - destruct r as [|r].
    + rewrite filter_cons_False by (pose proof (Hhi 0%nat x (le_n _) eq_refl); lia).
      apply (IH 0%nat); [lia|intros; lia|].
      intros k y _ Hy. apply (Hhi (S k) y); [lia|done].
    + rewrite filter_cons_True by (apply (Hlo 0%nat x); [lia|done]).
      simpl. f_equal. apply IH; [lia| |].
      * intros k y Hk Hy. apply (Hlo (S k) y); [lia|done].
      * intros k y Hk Hy. apply (Hhi (S k) y); [lia|done].
Qed.

(** On a sorted sequence the binary search counts the entries strictly
    below the value. *)
Lemma lower_bound_count (bd : tensor) (v : Z) :
  StronglySorted Z.le bd → lower_bound bd v = count_lt bd v.
Proof.
  intros Hs. unfold lower_bound. symmetry.
  destruct (lower_bound_loop_spec bd v (length bd) 0 (length bd) Hs)
    as (Hr&Hlo&Hhi); [lia|lia|intros; lia| |].
  - intros k x Hk Hx. apply lookup_lt_Some in Hx. lia.
  - by apply count_lt_split.
Qed.

Lemma StronglySorted_lt_le (l : tensor) : StronglySorted Z.lt l → StronglySorted Z.le l.
Proof.
  induction 1 as [|x l _ IH Hall]; constructor; [done|].
  eapply Forall_impl; [exact Hall|]. intros; simpl in *; lia.
Qed.

Lemma searchsorted_count (index values : tensor) :
  StronglySorted Z.le index →
  searchsorted index values = map (count_lt index) values.
Proof.
  intros Hs. unfold searchsorted.
  apply map_ext. intros v. by apply lower_bound_count.
Qed.

Lemma count_lt_mono (l : tensor) (u v : Z) : u ≤ v → count_lt l u ≤ count_lt l v.
Proof.
  intros Huv. unfold count_lt. apply inj_le.
  induction l as [|x l IH]; simpl; [done|].
  rewrite !filter_cons. repeat case_decide; simpl; lia.
Qed.

Lemma count_lt_none (l : tensor) (v : Z) :
  Forall (λ x, v ≤ x) l → count_lt l v = 0.
Proof.
  unfold count_lt. induction 1 as [|x l Hx _ IH]; [done|].
  rewrite filter_cons_False by lia. done.
Qed.

Lemma count_lt_all (l : tensor) (v : Z) :
  Forall (λ x, x < v) l → count_lt l v = Z.of_nat (length l).
Proof.
  unfold count_lt. induction 1 as [|x l Hx _ IH]; [done|].
  rewrite filter_cons_True by done. simpl. lia.
Qed.

(** ** The slicer on one structure *)

Lemma select_csc_Ok (c c' : CSCFormatBase) (index : tensor) :
  StronglySorted Z.le index → Forall (λ i, 0 ≤ i) index →
  select_csc c index = Ok c' ↔
  gathered (indices c) index (indices c')
  ∧ indptr c' = map (count_lt index) (indptr c).
Proof.
  intros Hs Hpos. unfold select_csc. rewrite searchsorted_count by done.
  destruct (getitem (indices c) index) as [ys|e] eqn:Hg; simpl.
  - apply getitem_Ok in Hg; [|done]. split.
    + intros [= <-]. done.
    + intros [Hg' Hp]. destruct c' as [p' i']; simpl in *. subst p'.
      f_equal. f_equal. by eapply gathered_unique.
  - split; [done|]. intros [Hg' _]. apply getitem_Ok in Hg'; [|done]. congruence.
Qed.

Lemma sliced_csc_valid (c c' : CSCFormatBase) (index : tensor) :
  valid_csc c →
  StronglySorted Z.le index → Forall (λ i, 0 ≤ i) index →
  select_csc c index = Ok c' →
  valid_csc c' ∧ length (indptr c') = length (indptr c).
Proof.
  intros (Hsorted&Hhead&Hlast) Hs Hpos Hsel.
  assert (Forall (λ i, i < Z.of_nat (length (indices c))) index) as Hhi.
  { unfold select_csc in Hsel.
    destruct (getitem (indices c) index) eqn:Hg; [|done].
    by eapply getitem_in_range. }
  apply select_csc_Ok in Hsel as [Hg Hp]; [|done..].
  split; [|by rewrite Hp, length_map].
  unfold valid_csc. rewrite Hp. repeat split.
  - apply (Sorted_fmap _ Z.le Z.le); [|done].
    intros x y Hxy. by apply count_lt_mono.
  - destruct (indptr c) as [|p ps]; simpl in *; [done|].
    injection Hhead as ->. f_equal. by apply count_lt_none.
  - change (map (count_lt index) (indptr c)) with (count_lt index <$> indptr c).
    rewrite fmap_last, Hlast. simpl. f_equal.
    rewrite count_lt_all by done. f_equal. by apply Forall2_length in Hg.
Qed.

(** ** [expand_indptr] and the reverse-id resolver *)

Lemma expand_cons (id : Z) (ids : tensor) (a b : Z) (rest : tensor) :
  expand (id :: ids) (a :: b :: rest)
  = replicate (Z.to_nat (b - a)) id ++ expand ids (b :: rest).
Proof. done. Qed.

Lemma sorted_head_le (l : tensor) (p a : Z) (j : nat) :
  StronglySorted Z.le l → head l = Some p → l !! j = Some a → p ≤ a.
Proof.
  intros Hs Hh Hj. rewrite head_lookup in Hh.
  destruct j as [|j]; [by simplify_eq|].
  apply (StronglySorted_lookup Z.le l 0 (S j) p a Hs); [lia|done|done].
Qed.

Lemma expand_length (ids indptr : tensor) (p0 pl : Z) :
  StronglySorted Z.le indptr →
  head indptr = Some p0 → last indptr = Some pl →
  (length indptr - 1 ≤ length ids)%nat →
  length (expand ids indptr) = Z.to_nat (pl - p0).
Proof.
  intros Hs. revert ids p0.
  induction Hs as [|a rest Hs IH Hall]; intros ids p0 Hh Hl Hlen; [done|].
  simpl in Hh. injection Hh as <-.
  destruct rest as [|b rest].
  - simpl in Hl. injection Hl as <-. destruct ids; simpl; lia.
  - rewrite last_cons_cons in Hl. destruct ids as [|id ids]; [simpl in Hlen; lia|].
    rewrite expand_cons, length_app, length_replicate.
    rewrite (IH ids b); [|done|done|simpl in *; lia].
    inversion Hall as [|? ? Hab _]; subst.
    assert (b ≤ pl).
    { rewrite last_lookup in Hl. by eapply (sorted_head_le (b :: rest)). }
    lia.
Qed.

Lemma expand_lookup (ids indptr : tensor) (p0 : Z) (j : nat) (a b i id : Z) :
  StronglySorted Z.le indptr →
  head indptr = Some p0 →
  indptr !! j = Some a → indptr !! S j = Some b → a ≤ i < b →
  ids !! j = Some id →
  expand ids indptr !! Z.to_nat (i - p0) = Some id.
Proof.
  intros Hs. revert ids p0 j.
  induction Hs as [|a0 rest Hs IH Hall]; intros ids p0 j Hh Ha Hb Hi Hid; [done|].
  simpl in Hh. injection Hh as <-.
  destruct rest as [|b0 rest]; [done|].
  destruct ids as [|id0 ids]; [done|].
  rewrite expand_cons.
  inversion Hall as [|? ? Hab _]; subst.
  destruct j as [|j]; simpl in *.
  - simplify_eq. rewrite lookup_app_l by (rewrite length_replicate; lia).
    apply lookup_replicate_2. lia.
  - assert (b0 ≤ a) by (by eapply (sorted_head_le (b0 :: rest))).
    rewrite lookup_app_r by (rewrite length_replicate; lia).
    rewrite length_replicate.
    replace (Z.to_nat (i - a0) - Z.to_nat (b0 - a0))%nat with (Z.to_nat (i - b0)) by lia.
    by apply (IH ids b0 j).
Qed.

Lemma arange_lookup (n j : nat) : (j < n)%nat → arange n !! j = Some (Z.of_nat j).
Proof.
  intros Hj. unfold arange. rewrite list_lookup_fmap, lookup_seq_lt by done. done.
Qed.

Lemma arange_length (n : nat) : length (arange n) = n.
Proof. unfold arange. by rewrite length_map, length_seq. Qed.

Lemma valid_csc_strongly_sorted (c : CSCFormatBase) :
  valid_csc c → StronglySorted Z.le (indptr c).
Proof. intros (Hs&_&_). apply Sorted_StronglySorted; [|done]. intros x y z. lia. Qed.

(** The ids handed to [expand]: the column map, or the column numbers. *)
Lemma column_ids_lookup (c : CSCFormatBase) (column_map : ids_field) (j : nat) :
  columns_labelled column_map c → (j < length (indptr c) - 1)%nat →
  is_Some (column_ids column_map c !! j)
  ∧ column_ids column_map c !! j = column_id column_map j.
Proof.
  intros Hcol Hj. unfold column_ids.
  destruct column_map as [|t|m]; simpl in *; [| |done].
  - rewrite arange_lookup by done. split; [by eexists|done].
  - split; [apply lookup_lt_is_Some; lia|done].
Qed.

Lemma column_ids_length (c : CSCFormatBase) (column_map : ids_field) :
  columns_labelled column_map c →
  length (column_ids column_map c) = (length (indptr c) - 1)%nat.
Proof.
  unfold column_ids. destruct column_map; simpl; try done.
  intros _. apply arange_length.
Qed.

(** The resolver succeeds, and what it returns: the resolved rows and the
    expansion of [indptr]. *)
Lemma to_reverse_ids_Ok (c : CSCFormatBase) (row_map column_map : ids_field) :
  valid_csc c → rows_resolve row_map c → columns_labelled column_map c →
  ∃ orig_src,
    _to_reverse_ids c row_map column_map
    = Ok (orig_src, expand (column_ids column_map c) (indptr c))
    ∧ Forall2 (λ x y, row_id row_map x = Some y) (indices c) orig_src
    ∧ length (expand (column_ids column_map c) (indptr c)) = length (indices c).
Proof.
  intros Hvalid Hrow Hcol.
  pose proof (valid_csc_strongly_sorted c Hvalid) as Hs.
  destruct Hvalid as (_&Hhead&Hlast).
  assert (length (expand (column_ids column_map c) (indptr c)) = length (indices c))
    as Hlen.
  { rewrite (expand_length _ (indptr c) 0 _ Hs Hhead Hlast).
    - lia.
    - by rewrite column_ids_length. }
  unfold _to_reverse_ids, expand_indptr, column_ids in *.
  destruct row_map as [|t|m]; simpl in Hrow; [| |done].
  - exists (indices c). split; [by destruct column_map|]. split; [|done].
    apply Forall_Forall2_diag, Forall_forall. done.
  - destruct (gathered_total t (indices c) Hrow) as [ys Hys].
    exists ys. split; [|split; [done|done]].
    assert (index_select t (indices c) = Ok ys) as ->.
    { apply index_select_Ok. split; [done|].
      eapply Forall_impl; [exact Hrow|]. intros; simpl in *; lia. }
    by destruct column_map.
Qed.

(** C4: on a valid structure whose row map resolves every row index and
    whose column map has one entry per column, [_to_reverse_ids] returns
    two sequences as long as [indices]; position [i] of the first holds the
    original id of [indices[i]] and position [i] of the second the original
    id of the column that owns edge [i]. *)
Theorem to_reverse_ids_spec (c : CSCFormatBase) (row_map column_map : ids_field) :
  valid_csc c → rows_resolve row_map c → columns_labelled column_map c →
  resolved c row_map column_map (_to_reverse_ids c row_map column_map).
Proof.
  intros Hvalid Hrow Hcol.
  destruct (to_reverse_ids_Ok c row_map column_map Hvalid Hrow Hcol)
    as (orig_src&Hrev&Hsrc&Hlen).
  pose proof (valid_csc_strongly_sorted c Hvalid) as Hs.
  destruct Hvalid as (_&Hhead&_).
  exists orig_src, (expand (column_ids column_map c) (indptr c)).
  split; [done|]. split; [symmetry; by eapply Forall2_length|].
  split; [done|]. split.
  - intros i x Hx.
    destruct (Forall2_lookup_l _ _ _ _ _ Hsrc Hx) as (y&Hy&Hxy).
    rewrite Hy, Hxy. split; [by eexists|done].
  - intros i j (a&b&Ha&Hb&Hi).
    assert (j < length (indptr c) - 1)%nat as Hj.
    { apply lookup_lt_Some in Hb. lia. }
    destruct (column_ids_lookup c column_map j Hcol Hj) as [[id Hid] Heq].
    rewrite <- Heq, Hid.
    pose proof (expand_lookup _ (indptr c) 0 j a b (Z.of_nat i) id
                  Hs Hhead Ha Hb Hi Hid) as Hl.
    rewrite Z.sub_0_r, Nat2Z.id in Hl. split; [by eexists|done].
Qed.

Lemma to_reverse_ids_spec_witness :
  resolved (mkCSC [0; 1; 2; 3] [0; 1; 2]) (IdsOne [13; 14; 15]) (IdsOne [10; 11; 12])
    (_to_reverse_ids (mkCSC [0; 1; 2; 3] [0; 1; 2]) (IdsOne [13; 14; 15])
       (IdsOne [10; 11; 12])).
Proof.
  apply to_reverse_ids_spec.
  - repeat split; simpl; repeat constructor; lia.
  - simpl. repeat constructor; simpl; lia.
  - reflexivity.
Defined.

(** ** Slicing a homogeneous subgraph *)

Lemma retain_index_nonneg (n : nat) (index : tensor) :
  retain_index n index → Forall (λ i, 0 ≤ i) index.
Proof. intros [_ H]. eapply Forall_impl; [exact H|]. intros; simpl in *; lia. Qed.

Lemma select_csc_total (c : CSCFormatBase) (index : tensor) :
  retain_index (length (indices c)) index →
  ∃ new_indices,
    select_csc c index = Ok (mkCSC (map (count_lt index) (indptr c)) new_indices)
    ∧ gathered (indices c) index new_indices.
Proof.
  intros Hri. pose proof (retain_index_nonneg _ _ Hri) as Hpos.
  destruct Hri as [Hs Hr].
  destruct (gathered_total (indices c) index Hr) as [ys Hys].
  exists ys. split; [|done]. by apply select_csc_Ok.
Qed.

(** C3: slicing a homogeneous subgraph at a retain-index gathers [indices]
    (and the edge ids, when present) at that index and maps every column
    boundary [indptr[j]] to the number of retained positions strictly below
    it; slicing at [None] returns the four fields unchanged. *)
Theorem slice_subgraph_spec (g : SampledSubgraph) (c : CSCFormatBase) (index : tensor) :
  sampled_csc g = POne c →
  retain_index (length (indices c)) index →
  edge_ids_aligned (length (indices c)) (original_edge_ids g) →
  sliced g c index (_slice_subgraph g (ITensor index))
  ∧ _slice_subgraph g INone
    = Ok (sampled_csc g, original_column_node_ids g, original_row_node_ids g,
          original_edge_ids g).
Proof.
  intros Hc Hri Heids. split.
  - destruct (select_csc_total c index Hri) as (ys&Hsel&Hys).
    unfold sliced, _slice_subgraph. rewrite Hc. simpl. rewrite Hsel. simpl.
    destruct (original_edge_ids g) as [|t|d] eqn:He; simpl in *; [| |done].
    + exists ys, PNone. done.
    + destruct Hri as [_ Hr]. rewrite <- Heids in Hr.
      destruct (gathered_total t index Hr) as [ts Hts].
      exists ys, (POne ts). unfold select_tensor.
      assert (getitem t index = Ok ts) as ->; [|done].
      apply getitem_Ok; [|done].
      eapply Forall_impl; [exact Hr|]. intros; simpl in *; lia.
  - unfold _slice_subgraph.
    destruct (sampled_csc g), (original_edge_ids g); done.
Qed.

Lemma slice_subgraph_spec_witness :
  let g := mkSubgraph (POne (mkCSC [0; 1; 2; 3] [7; 8; 9])) IdsNone IdsNone
             (POne [19; 20; 21]) in
  sliced g (mkCSC [0; 1; 2; 3] [7; 8; 9]) [0; 2] (_slice_subgraph g (ITensor [0; 2]))
  ∧ _slice_subgraph g INone
    = Ok (sampled_csc g, original_column_node_ids g, original_row_node_ids g,
          original_edge_ids g).
Proof.
  apply slice_subgraph_spec.
  - reflexivity.
  - split; repeat constructor; simpl; lia.
  - reflexivity.
Defined.

(** ** Dictionaries *)

Lemma dict_set_fresh {V : Type} (d : dict V) (k : string) (v : V) :
  k ∉ dict_keys d → dict_set d k v = d ++ [(k, v)].
Proof.
  induction d as [|[k' v'] d IH]; simpl; [done|].
  intros Hk. apply not_elem_of_cons in Hk as [Hne Hk].
  rewrite decide_False by done. by rewrite IH.
Qed.

Lemma dict_for_app {A B : Type} (body : string → A → result B)
    (items : dict A) (ret : dict B) :
  NoDup (dict_keys items) →
  (∀ k, k ∈ dict_keys items → k ∉ dict_keys ret) →
  dict_for body items ret
  = (rs ← for_each (λ kv, pair kv.1 <$> body kv.1 kv.2) items; Ok (ret ++ rs)).
Proof.
  revert ret. induction items as [|[k v] items IH]; intros ret Hnd Hfresh; simpl.
  - by rewrite app_nil_r.
  - apply NoDup_cons in Hnd as [Hk Hnd].
    destruct (body k v) as [r|e]; simpl; [|done].
    rewrite dict_set_fresh by (apply Hfresh; left).
    rewrite IH; [|done|].
    + destruct (for_each _ items); simpl; [|done]. by rewrite <- app_assoc.
    + intros k' Hk'. unfold dict_keys. rewrite fmap_app, elem_of_app. simpl.
      intros [Hin|Hin%list_elem_of_singleton].
      * eapply Hfresh; [right; exact Hk'|done].
      * by subst.
Qed.

(** On a dictionary the loop maps its body over the items, key by key. *)
Lemma dict_for_Ok {A B : Type} (body : string → A → result B)
    (items : dict A) (out : dict B) :
  NoDup (dict_keys items) →
  dict_for body items [] = Ok out ↔
  Forall2 (λ kv kr, kr.1 = kv.1 ∧ body kv.1 kv.2 = Ok kr.2) items out.
Proof.
  intros Hnd. rewrite dict_for_app; [|done|by intros ? _ ?%elem_of_nil].
  destruct (for_each _ items) as [rs|e] eqn:Hrs; simpl.
  - apply for_each_Ok in Hrs. split.
    + intros [= <-]. eapply Forall2_impl; [exact Hrs|].
      intros [k v] [k' r]; simpl. destruct (body k v); simpl; [|done].
      by intros [= -> ->].
    + intros H. f_equal. revert H. clear -Hrs. revert out.
      induction Hrs as [|[k v] [k' r] items rs Hr _ IH]; intros out H;
        inversion H as [|? [k'' r''] ? out' [Hk Hb] Hrest]; subst; [done|].
      simpl in *. subst k''. f_equal; [|by apply IH].
      rewrite Hb in Hr. simpl in Hr. by injection Hr as <- <-.
  - split; [done|]. intros H. exfalso.
    assert (for_each (λ kv, pair kv.1 <$> body kv.1 kv.2) items = Ok out) as Hok.
    { apply for_each_Ok. eapply Forall2_impl; [exact H|].
      intros [k v] [k' r]; simpl. intros [-> ->]. done. }
    congruence.
Qed.

Lemma dict_for_ext {A B : Type} (body1 body2 : string → A → result B)
    (items : dict A) (ret : dict B) :
  (∀ k v, (k, v) ∈ items → body1 k v = body2 k v) →
  dict_for body1 items ret = dict_for body2 items ret.
Proof.
  revert ret. induction items as [|[k v] items IH]; intros ret Hext; simpl; [done|].
  rewrite (Hext k v) by left.
  destruct (body2 k v); simpl; [|done].
  apply IH. intros k' v' Hin. apply Hext. by right.
Qed.

(** Lookups in the image of a dictionary under a key-preserving loop. *)
Lemma dict_get_Forall2 {A B : Type} (P : string → A → B → Prop)
    (items : dict A) (out : dict B) (k : string) :
  Forall2 (λ kv kr, kr.1 = kv.1 ∧ P kv.1 kv.2 kr.2) items out →
  match dict_get items k, dict_get out k with
  | Some v, Some r => P k v r
  | None, None => True
  | _, _ => False
  end.
Proof.
  induction 1 as [|[k1 v] [k2 r] items out [Hk HP] _ IH]; simpl in *; [done|].
  subst k2. destruct (decide (k1 = k)) as [->|Hne]; done.
Qed.

Lemma dict_get_Some_elem_of {V : Type} (d : dict V) (k : string) (v : V) :
  dict_get d k = Some v → (k, v) ∈ d.
Proof.
  induction d as [|[k' v'] d IH]; simpl; [done|].
  destruct (decide (k' = k)) as [->|Hne].
  - intros [= ->]. left.
  - intros H. right. by apply IH.
Qed.

Lemma dict_get_elem_of {V : Type} (d : dict V) (k : string) (v : V) :
  NoDup (dict_keys d) → (k, v) ∈ d → dict_get d k = Some v.
Proof.
  induction d as [|[k' v'] d IH]; simpl; [by intros _ ?%elem_of_nil|].
  intros [Hk Hnd]%NoDup_cons [[= -> ->]|Hin]%elem_of_cons.
  - by rewrite decide_True.
  - rewrite decide_False; [by apply IH|].
    intros ->. apply Hk. unfold dict_keys.
    apply list_elem_of_fmap. by exists (k, v).
Qed.

Lemma dict_get_None {V : Type} (d : dict V) (k : string) :
  dict_get d k = None ↔ k ∉ dict_keys d.
Proof.
  induction d as [|[k' v'] d IH]; simpl.
  - split; [intros _ ?%elem_of_nil; done|done].
  - rewrite not_elem_of_cons. destruct (decide (k' = k)) as [->|Hne].
    + split; [done|]. by intros [? _].
    + rewrite IH. split; [by split|by intros [_ ?]].
Qed.

(** ** Which exceptions can escape *)

Lemma only_inner_Ok {A : Type} (a : A) : only_inner (Ok a).
Proof. by intros e. Qed.

Lemma only_inner_Err {A : Type} (e : error) : inner_error e → only_inner (@Err A e).
Proof. by intros He e' [= <-]. Qed.

Lemma only_inner_bind {A B : Type} (r : result A) (k : A → result B) :
  only_inner r → (∀ a, only_inner (k a)) → only_inner (r ≫= k).
Proof.
  intros Hr Hk e. destruct r as [a|e']; simpl.
  - apply Hk.
  - intros [= <-]. by apply Hr.
Qed.

Lemma only_inner_fmap {A B : Type} (f : A → B) (r : result A) :
  only_inner r → only_inner (f <$> r).
Proof.
  intros Hr e. destruct r as [a|e']; simpl; [done|].
  intros [= <-]. by apply Hr.
Qed.

Lemma only_inner_for_each {A B : Type} (f : A → result B) (l : list A) :
  (∀ x, only_inner (f x)) → only_inner (for_each f l).
Proof.
  intros Hf. induction l as [|x l IH]; simpl; [apply only_inner_Ok|].
  apply only_inner_bind; [done|]. intros y.
  apply only_inner_bind; [done|]. intros ys. apply only_inner_Ok.
Qed.

Lemma only_inner_dict_for {A B : Type} (body : string → A → result B)
    (items : dict A) (ret : dict B) :
  (∀ k v, only_inner (body k v)) → only_inner (dict_for body items ret).
Proof.
  intros Hb. revert ret. induction items as [|[k v] items IH]; intros ret; simpl.
  - apply only_inner_Ok.
  - apply only_inner_bind; [done|]. intros r. apply IH.
Qed.

Create HintDb inner discriminated.
#[local] Hint Resolve only_inner_Ok only_inner_fmap only_inner_for_each
  only_inner_dict_for : inner.
#[local] Hint Extern 1 (only_inner (Err _)) =>
  apply only_inner_Err; first [exact I | reflexivity] : inner.
#[local] Hint Extern 2 (only_inner (_ ≫= _)) =>
  apply only_inner_bind; [|intros ?] : inner.

Lemma only_inner_getitem (t index : tensor) : only_inner (getitem t index).
Proof.
  unfold getitem. cbv zeta. apply only_inner_for_each. intros i.
  destruct (_ && _); [|auto with inner]. destruct (t !! _); auto with inner.
Qed.

Lemma only_inner_index_select (t index : tensor) : only_inner (index_select t index).
Proof.
  unfold index_select. apply only_inner_for_each. intros i.
  destruct (_ && _); [|auto with inner]. destruct (t !! _); auto with inner.
Qed.

Lemma only_inner_broadcast2 (f : Z → Z → Z) (a b : tensor) :
  only_inner (broadcast2 f a b).
Proof.
  unfold broadcast2. destruct (_ =? _)%nat; [auto with inner|].
  destruct a as [|? [|? ?]], b as [|? [|? ?]]; auto with inner.
Qed.

#[local] Hint Resolve only_inner_getitem only_inner_index_select
  only_inner_broadcast2 : inner.

Lemma only_inner_to_reverse_ids (c : CSCFormatBase) (row_map column_map : ids_field) :
  only_inner (_to_reverse_ids c row_map column_map).
Proof.
  unfold _to_reverse_ids. destruct row_map, column_map; simpl; auto 10 with inner.
Qed.

Lemma only_inner_exclude_dispatch (dt dt_ex : dtype) (reverse_edges : tensor * tensor)
    (e : edge_list) :
  only_inner (exclude_dispatch dt dt_ex reverse_edges e true).
Proof.
  unfold exclude_dispatch, _exclude_homo_edges, _exclude_homo_edges_2, pack_keys.
  destruct e; simpl.
  - apply only_inner_bind; [auto 10 with inner|]. intros [? ?]. auto with inner.
  - apply only_inner_bind; [auto 10 with inner|]. intros [? ?]. auto with inner.
Qed.

Lemma only_inner_index_select_field {A : Type} (sel : A → tensor → result A)
    (obj : py_field A) (index : py_index) :
  (∀ a i, only_inner (sel a i)) → only_inner (_index_select sel obj index).
Proof.
  intros Hsel. unfold _index_select, _index_select_leaf, index_getitem.
  destruct obj, index; auto with inner.
  apply only_inner_fmap, only_inner_dict_for. intros k v.
  destruct (dict_get d0 k) as [[i|]|]; simpl; auto with inner.
Qed.

Lemma only_inner_slice_subgraph (g : SampledSubgraph) (index : py_index) :
  only_inner (_slice_subgraph g index).
Proof.
  unfold _slice_subgraph.
  apply only_inner_bind.
  { apply only_inner_index_select_field. intros a i. unfold select_csc.
    auto with inner. }
  intros csc. apply only_inner_bind; [|auto with inner].
  apply only_inner_index_select_field. intros a i. apply only_inner_getitem.
Qed.

(** ** Slicing at every position *)

Lemma nonzero_all_true (mask : list bool) :
  Forall (λ b, b = true) mask → nonzero mask = arange (length mask).
Proof.
  intros Hall. unfold nonzero, arange. rewrite nonzero_from_length by done.
  apply map_ext. intros n. lia.
Qed.

Lemma arange_sorted (n : nat) : StronglySorted Z.le (arange n).
Proof.
  rewrite <- (length_replicate n true), <- nonzero_all_true.
  - apply StronglySorted_lt_le, nonzero_from_sorted.
  - apply Forall_forall. by intros b [-> _]%elem_of_replicate.
Qed.

Lemma arange_range (n : nat) : Forall (λ i, 0 ≤ i < Z.of_nat n) (arange n).
Proof.
  apply Forall_forall. intros i (k&->&Hk)%list_elem_of_fmap.
  apply elem_of_seq in Hk. lia.
Qed.

Lemma arange_nonneg (n : nat) : Forall (λ i, 0 ≤ i) (arange n).
Proof. eapply Forall_impl; [apply arange_range|]. intros; simpl in *; lia. Qed.

Lemma gathered_arange (t : tensor) : gathered t (arange (length t)) t.
Proof.
  apply Forall2_same_length_lookup_2; [by rewrite arange_length|].
  intros i x y Hx Hy. pose proof (lookup_lt_Some _ _ _ Hy) as Hi.
  rewrite arange_lookup in Hx by done. injection Hx as <-.
  by rewrite Nat2Z.id.
Qed.

Lemma getitem_arange (t : tensor) : getitem t (arange (length t)) = Ok t.
Proof. apply getitem_Ok; [apply arange_nonneg|apply gathered_arange]. Qed.

Lemma count_lt_arange (n : nat) (v : Z) :
  0 ≤ v ≤ Z.of_nat n → count_lt (arange n) v = v.
Proof.
  intros Hv. rewrite (count_lt_split (arange n) v (Z.to_nat v)).
  - lia.
  - rewrite arange_length. lia.
  - intros k x Hk Hx. pose proof (lookup_lt_Some _ _ _ Hx) as Hlt.
    rewrite arange_length in Hlt. rewrite arange_lookup in Hx by done.
    injection Hx as <-. lia.
  - intros k x Hk Hx. pose proof (lookup_lt_Some _ _ _ Hx) as Hlt.
    rewrite arange_length in Hlt. rewrite arange_lookup in Hx by done.
    injection Hx as <-. lia.
Qed.

Lemma valid_csc_indptr_bounds (c : CSCFormatBase) :
  valid_csc c → Forall (λ p, 0 ≤ p ≤ Z.of_nat (length (indices c))) (indptr c).
Proof.
  intros Hvalid. pose proof (valid_csc_strongly_sorted c Hvalid) as Hs.
  destruct Hvalid as (_&Hhead&Hlast).
  apply Forall_forall. intros p Hp.
  apply list_elem_of_lookup in Hp as [j Hj]. split.
  - by eapply sorted_head_le.
  - rewrite last_lookup in Hlast.
    pose proof (lookup_lt_Some _ _ _ Hj) as Hlt.
    destruct (decide (j = pred (length (indptr c)))) as [->|Hne].
    + rewrite Hj in Hlast. injection Hlast as ->. lia.
    + eapply (StronglySorted_lookup Z.le _ j (pred (length (indptr c)))); eauto. lia.
Qed.

Lemma select_csc_arange (c : CSCFormatBase) :
  valid_csc c → select_csc c (arange (length (indices c))) = Ok c.
Proof.
  intros Hvalid. apply select_csc_Ok; [apply arange_sorted|apply arange_nonneg|].
  split; [apply gathered_arange|].
  pose proof (valid_csc_indptr_bounds c Hvalid) as Hb.
  induction Hb as [|p ps Hp _ IH]; simpl; [done|].
  by rewrite count_lt_arange, <- IH.
Qed.

Lemma isin_unmatched (val val_to_exclude : tensor) :
  Forall (λ k, k ∉ val_to_exclude) val →
  nonzero (map negb (isin val val_to_exclude)) = arange (length val).
Proof.
  intros Hun. rewrite nonzero_all_true.
  - unfold isin. by rewrite !length_map.
  - unfold isin. rewrite Forall_forall in Hun.
    apply Forall_forall. intros b (b'&->&(k&->&Hk)%list_elem_of_fmap)%list_elem_of_fmap.
    apply negb_true_iff, bool_decide_eq_false. by apply Hun.
Qed.

Lemma exclude_dispatch_keys (dt dt_ex : dtype) (src dst : tensor) (e : edge_list) :
  length src = length dst → edge_list_wf e →
  exclude_dispatch dt dt_ex (src, dst) e true
  = Ok (nonzero (map negb (isin (zip_with (pack_key dt) src dst) (edge_keys dt_ex e)))).
Proof.
  intros Hlen Hwf. destruct e as [ex_src ex_dst|rows]; simpl in *.
  - by apply exclude_homo_edges_keys.
  - by apply exclude_homo_edges_2_keys.
Qed.

(** A relation none of whose edges is matched keeps every position. *)
Lemma unmatched_index (dt dt_ex : dtype) (c : CSCFormatBase) (row_map column_map : ids_field)
    (e : edge_list) :
  valid_csc c → rows_resolve row_map c → columns_labelled column_map c →
  edge_list_wf e → unmatched dt dt_ex c row_map column_map e →
  ∃ reverse_edges,
    _to_reverse_ids c row_map column_map = Ok reverse_edges
    ∧ exclude_dispatch dt dt_ex reverse_edges e true = Ok (arange (length (indices c))).
Proof.
  intros Hvalid Hrow Hcol Hwf Hun.
  destruct (to_reverse_ids_Ok c row_map column_map Hvalid Hrow Hcol)
    as (src&Hrev&Hsrc%Forall2_length&Hdst).
  set (dst := expand (column_ids column_map c) (indptr c)) in *.
  exists (src, dst). split; [done|].
  rewrite exclude_dispatch_keys by (done || congruence).
  unfold unmatched, sampled_keys in Hun. rewrite Hrev in Hun.
  rewrite isin_unmatched by done. f_equal. f_equal.
  rewrite length_zip_with. lia.
Qed.

(** ** [exclude_edges]: guards and dispatch *)

Section exclude_edges_properties.

Variable etype_str_to_tuple : string → option (string * string * string).
Variables dt dt_ex : dtype.

Lemma only_inner_exclude_relation (g : SampledSubgraph) (m : gmap string edge_list)
    (etype : string) (pair : CSCFormatBase) :
  only_inner (exclude_relation etype_str_to_tuple dt dt_ex g m true etype pair).
Proof.
  unfold exclude_relation, etype_tuple.
  destruct (m !! etype) as [e|]; [|auto with inner].
  apply only_inner_bind.
  { destruct (etype_str_to_tuple etype); auto with inner. }
  intros [[src_type rel] dst_type].
  apply only_inner_bind.
  { unfold ids_get. destruct (original_row_node_ids g); auto with inner. }
  intros row_ids. apply only_inner_bind.
  { unfold ids_get. destruct (original_column_node_ids g); auto with inner. }
  intros col_ids. apply only_inner_bind; [apply only_inner_to_reverse_ids|].
  intros reverse_edges. apply only_inner_fmap, only_inner_exclude_dispatch.
Qed.

(** Past the two guards only inner exceptions remain. *)
Lemma exclude_edges_past_guards (g : SampledSubgraph) (edges : edges_arg) :
  is_single_csc (sampled_csc g) = is_single_edges edges →
  only_inner (exclude_edges etype_str_to_tuple dt dt_ex g edges true).
Proof.
  intros Hagree. unfold exclude_edges. simpl.
  rewrite bool_decide_eq_true_2 by done. simpl.
  destruct (sampled_csc g) as [|csc|d]; [auto with inner| |].
  - apply only_inner_bind; [apply only_inner_to_reverse_ids|].
    intros reverse_edges. apply only_inner_bind.
    { destruct edges; [apply only_inner_exclude_dispatch|auto with inner]. }
    intros index. apply only_inner_fmap, only_inner_slice_subgraph.
  - destruct edges as [e|m]; [auto with inner|].
    apply only_inner_bind.
    { apply only_inner_dict_for. intros k v. apply only_inner_exclude_relation. }
    intros index. apply only_inner_fmap, only_inner_slice_subgraph.
Qed.

(** C7: with [assume_num_node_within_int32] false, [exclude_edges] raises
    the "not supported" assertion whatever the subgraph and the edges;
    with the flag true it raises neither that assertion nor the
    [NotImplementedError] of the wide-range path. *)
Theorem exclude_edges_int32_guard (g : SampledSubgraph) (edges : edges_arg) :
  exclude_edges etype_str_to_tuple dt dt_ex g edges false
  = Err (AssertionError msg_int32)
  ∧ exclude_edges etype_str_to_tuple dt dt_ex g edges true
    ≠ Err (AssertionError msg_int32)
  ∧ ∀ msg, exclude_edges etype_str_to_tuple dt dt_ex g edges true
           ≠ Err (NotImplementedError msg).
Proof.
  split; [done|].
  destruct (decide (is_single_csc (sampled_csc g) = is_single_edges edges))
    as [Hagree|Hdiff].
  - pose proof (exclude_edges_past_guards g edges Hagree) as Hinner.
    split; [|intros msg]; intros Herr; apply Hinner in Herr; done.
  - unfold exclude_edges. simpl.
    rewrite bool_decide_eq_false_2 by done. simpl. split; [|intros msg]; done.
Qed.

(** C8: when exactly one of the subgraph and the edges is a single
    structure, [exclude_edges] raises an assertion error whatever their
    contents, the homogeneity one once the int32 guard is passed; when
    they agree, the homogeneity assertion is not raised. *)
Theorem exclude_edges_homogeneity_guard (g : SampledSubgraph) (edges : edges_arg)
    (flag : bool) :
  (is_single_csc (sampled_csc g) ≠ is_single_edges edges →
     exclude_edges etype_str_to_tuple dt dt_ex g edges flag
     = Err (AssertionError (if flag then msg_homogeneity else msg_int32)))
  ∧ (is_single_csc (sampled_csc g) = is_single_edges edges →
     exclude_edges etype_str_to_tuple dt dt_ex g edges flag
     ≠ Err (AssertionError msg_homogeneity)).
Proof.
  split.
  - intros Hdiff. destruct flag; [|done].
    unfold exclude_edges. simpl.
    by rewrite bool_decide_eq_false_2.
  - intros Hagree. destruct flag; [|done].
    intros Herr. by apply (exclude_edges_past_guards g edges Hagree) in Herr.
Qed.

(** C9: for a heterogeneous subgraph, an entry of [edges] under a key
    that is not a relation of the subgraph changes nothing: the call
    returns, or raises, exactly what it does without that entry. *)
Theorem extra_relation_ignored (g : SampledSubgraph) (d : dict CSCFormatBase)
    (m : gmap string edge_list) (k : string) (e : edge_list) (flag : bool) :
  sampled_csc g = PDict d →
  k ∉ dict_keys d →
  exclude_edges etype_str_to_tuple dt dt_ex g (EdgesHetero (<[k:=e]> m)) flag
  = exclude_edges etype_str_to_tuple dt dt_ex g (EdgesHetero m) flag.
Proof.
  intros Hd Hk. unfold exclude_edges. rewrite Hd. simpl.
  destruct (py_assert flag msg_int32); simpl; [|done].
  rewrite (dict_for_ext _ (exclude_relation etype_str_to_tuple dt dt_ex g m flag)); [done|].
  intros k' v Hin. unfold exclude_relation.
  rewrite lookup_insert_ne; [done|].
  intros ->. apply Hk. unfold dict_keys. apply list_elem_of_fmap. by exists (k', v).
Qed.

(** ** What a successful call went through *)

Lemma exclude_edges_Ok_inv (g g' : SampledSubgraph) (edges : edges_arg) (flag : bool) :
  exclude_edges etype_str_to_tuple dt dt_ex g edges flag = Ok g' →
  flag = true ∧
  ∃ index,
    _slice_subgraph g index
    = Ok (sampled_csc g', original_column_node_ids g',
          original_row_node_ids g', original_edge_ids g')
    ∧ ((∃ c e reverse_edges idx,
          sampled_csc g = POne c ∧ edges = EdgesHomo e
          ∧ _to_reverse_ids c (original_row_node_ids g)
              (original_column_node_ids g) = Ok reverse_edges
          ∧ exclude_dispatch dt dt_ex reverse_edges e true = Ok idx
          ∧ index = ITensor idx)
       ∨ (∃ d m idx,
            sampled_csc g = PDict d ∧ edges = EdgesHetero m
            ∧ dict_for (exclude_relation etype_str_to_tuple dt dt_ex g m true) d [] = Ok idx
            ∧ index = IDict idx)).
Proof.
  unfold exclude_edges. destruct flag; [|done]. simpl.
  destruct (bool_decide _); [|done]. simpl. intros H. split; [done|].
  destruct (sampled_csc g) as [|c|d] eqn:Hcsc; [done| |].
  - destruct (_to_reverse_ids c _ _) as [reverse_edges|] eqn:Hrev; [|done].
    simpl in H. destruct edges as [e|m]; [|done].
    destruct (exclude_dispatch dt dt_ex reverse_edges e true) as [idx|] eqn:Hidx; [|done].
    simpl in H. exists (ITensor idx).
    destruct (_slice_subgraph g (ITensor idx)) as [[[[csc col] row] eids]|]; [|done].
    simpl in H. injection H as <-. split; [done|].
    left. by exists c, e, reverse_edges, idx.
  - destruct edges as [e|m]; [done|].
    destruct (dict_for _ d []) as [idx|] eqn:Hidx; [|done].
    simpl in H. exists (IDict idx).
    destruct (_slice_subgraph g (IDict idx)) as [[[[csc col] row] eids]|]; [|done].
    simpl in H. injection H as <-. split; [done|].
    right. by exists d, m, idx.
Qed.

Lemma slice_subgraph_Ok_inv (g : SampledSubgraph) (index : py_index)
    (csc : py_field CSCFormatBase) (col row : ids_field) (eids : py_field tensor) :
  _slice_subgraph g index = Ok (csc, col, row, eids) →
  _index_select select_csc (sampled_csc g) index = Ok csc
  ∧ _index_select select_tensor (original_edge_ids g) index = Ok eids
  ∧ col = original_column_node_ids g ∧ row = original_row_node_ids g.
Proof.
  unfold _slice_subgraph.
  destruct (_index_select select_csc _ _) as [csc'|]; [|done]. simpl.
  destruct (_index_select select_tensor _ _) as [eids'|]; [|done]. simpl.
  by intros [= <- <- <- <-].
Qed.

(** The entry of the sliced dictionary under each key. *)
Lemma index_select_dict_get {A : Type} (sel : A → tensor → result A)
    (d : dict A) (idx : dict (option tensor)) (f' : py_field A) :
  NoDup (dict_keys d) →
  _index_select sel (PDict d) (IDict idx) = Ok f' →
  ∃ d', f' = PDict d' ∧
    ∀ k, match dict_get d k, dict_get d' k with
         | Some v, Some r =>
             ∃ i, dict_get idx k = Some i ∧ _index_select_leaf sel v i = Ok r
         | None, None => True
         | _, _ => False
         end.
Proof.
  intros Hnd. simpl.
  destruct (dict_for _ d []) as [d'|] eqn:Hd'; [|done]. simpl.
  intros [= <-]. exists d'. split; [done|]. intros k.
  apply dict_for_Ok in Hd'; [|done].
  pose proof (dict_get_Forall2
    (λ k v r, (i ← index_getitem idx k; _index_select_leaf sel v i) = Ok r)
    d d' k Hd') as Hk.
  destruct (dict_get d k) as [v|], (dict_get d' k) as [r|]; try done.
  unfold index_getitem in Hk.
  destruct (dict_get idx k) as [i|]; [|done]. by exists i.
Qed.

(** The entry of [index] under each relation of the subgraph. *)
Lemma index_dict_get (g : SampledSubgraph) (m : gmap string edge_list)
    (d : dict CSCFormatBase) (idx : dict (option tensor)) (k : string) :
  NoDup (dict_keys d) →
  dict_for (exclude_relation etype_str_to_tuple dt dt_ex g m true) d [] = Ok idx →
  match dict_get d k, dict_get idx k with
  | Some c, Some i => exclude_relation etype_str_to_tuple dt dt_ex g m true k c = Ok i
  | None, None => True
  | _, _ => False
  end.
Proof.
  intros Hnd Hidx. apply dict_for_Ok in Hidx; [|done].
  apply (dict_get_Forall2
    (λ k c i, exclude_relation etype_str_to_tuple dt dt_ex g m true k c = Ok i) d idx k Hidx).
Qed.

(** ** Validity and frame *)

Lemma exclude_dispatch_index (reverse_edges : tensor * tensor) (e : edge_list)
    (idx : tensor) :
  exclude_dispatch dt dt_ex reverse_edges e true = Ok idx →
  StronglySorted Z.le idx ∧ Forall (λ i, 0 ≤ i) idx.
Proof.
  intros H.
  assert (∃ mask, idx = nonzero mask) as [mask ->].
  { unfold exclude_dispatch, _exclude_homo_edges, _exclude_homo_edges_2 in H.
    destruct e; simpl in H.
    - destruct (pack_keys dt reverse_edges.1 reverse_edges.2); [|done]. simpl in H.
      destruct (pack_keys _ _ _); [|done]. simpl in H.
      injection H as <-. by eexists.
    - destruct (pack_keys dt reverse_edges.1 reverse_edges.2); [|done]. simpl in H.
      destruct (pack_keys _ _ _); [|done]. simpl in H.
      injection H as <-. by eexists. }
  split.
  - apply StronglySorted_lt_le, nonzero_from_sorted.
  - apply Forall_forall. intros i [Hi _]%nonzero_from_spec. done.
Qed.

Lemma exclude_relation_index (g : SampledSubgraph) (m : gmap string edge_list)
    (k : string) (c : CSCFormatBase) (idx : tensor) :
  exclude_relation etype_str_to_tuple dt dt_ex g m true k c = Ok (Some idx) →
  StronglySorted Z.le idx ∧ Forall (λ i, 0 ≤ i) idx.
Proof.
  unfold exclude_relation. destruct (m !! k) as [e|]; [|done].
  intros H. step_bind H. destruct a as [[? ?] ?].
  do 3 step_bind H.
  destruct (exclude_dispatch _ _ _ e true) as [idx'|] eqn:Hd; [|done].
  simpl in H. injection H as <-. by eapply exclude_dispatch_index.
Qed.

(** C2: slicing a valid structure at a retain-index yields a valid
    structure with as many columns, and so does [exclude_edges] for the
    structure of a homogeneous subgraph and for every relation of a
    heterogeneous one. *)
Theorem csc_validity_preserved :
  (∀ c index,
     valid_csc c → retain_index (length (indices c)) index →
     ∃ c', select_csc c index = Ok c' ∧ same_columns_valid c c')
  ∧ (∀ g edges flag g',
       valid_field (sampled_csc g) → unique_keys (sampled_csc g) →
       exclude_edges etype_str_to_tuple dt dt_ex g edges flag = Ok g' →
       field_rel same_columns_valid (sampled_csc g) (sampled_csc g')).
Proof.
  split.
  - intros c index Hvalid Hri.
    destruct (select_csc_total c index Hri) as (ys&Hsel&_).
    eexists. split; [exact Hsel|].
    destruct Hri as [Hs Hr]. eapply sliced_csc_valid; [done|done| |done].
    eapply Forall_impl; [exact Hr|]. intros; simpl in *; lia.
  - intros g edges flag g' Hvalid Hnd (_&index&Hslice&Hindex)%exclude_edges_Ok_inv.
    apply slice_subgraph_Ok_inv in Hslice as (Hcsc&_).
    destruct Hindex as [(c&e&reverse_edges&idx&Hc&_&_&Hidx&->)
                       |(d&m&idx&Hd&_&Hidx&->)].
    + rewrite Hc in *. simpl in *.
      destruct (select_csc c idx) as [c'|] eqn:Hsel; [|done].
      simpl in Hcsc. injection Hcsc as <-. simpl.
      destruct (exclude_dispatch_index _ _ _ Hidx) as [Hs Hpos].
      by eapply sliced_csc_valid.
    + rewrite Hd in *. simpl in Hvalid, Hnd.
      destruct (index_select_dict_get _ _ _ _ Hnd Hcsc) as (d'&->&Hget).
      simpl. intros k. specialize (Hget k).
      pose proof (index_dict_get g m d idx k Hnd Hidx) as Hik.
      destruct (dict_get d k) as [c|] eqn:Hdk, (dict_get d' k) as [c'|]; try done.
      destruct Hget as (i&Hi&Hleaf). rewrite Hi in Hik.
      assert (valid_csc c) as Hc.
      { rewrite Forall_forall in Hvalid.
        apply (Hvalid (k, c)). by apply dict_get_Some_elem_of. }
      destruct i as [i|]; simpl in Hleaf.
      * destruct (exclude_relation_index _ _ _ _ _ Hik) as [Hs Hpos].
        by eapply sliced_csc_valid.
      * injection Hleaf as <-. done.
Qed.

(** C6: a successful [exclude_edges] hands on both node-id maps as they
    are, and for a heterogeneous subgraph every relation that [edges]
    does not name keeps its structure and its edge ids. *)
Theorem exclude_edges_frame (g g' : SampledSubgraph) (edges : edges_arg) (flag : bool) :
  unique_keys (sampled_csc g) → unique_keys (original_edge_ids g) →
  exclude_edges etype_str_to_tuple dt dt_ex g edges flag = Ok g' →
  original_row_node_ids g' = original_row_node_ids g
  ∧ original_column_node_ids g' = original_column_node_ids g
  ∧ ∀ m etype,
      edges = EdgesHetero m → m !! etype = None →
      field_get (sampled_csc g') etype = field_get (sampled_csc g) etype
      ∧ field_get (original_edge_ids g') etype
        = field_get (original_edge_ids g) etype.
Proof.
  intros Hnd Hnde (_&index&Hslice&Hindex)%exclude_edges_Ok_inv.
  apply slice_subgraph_Ok_inv in Hslice as (Hcsc&Heids&Hcol&Hrow).
  split; [done|]. split; [done|].
  intros m etype -> Hm.
  destruct Hindex as [(c&e&reverse_edges&idx&_&?&_)
                     |(d&m'&idx&Hd&[= <-]&Hidx&->)]; [done|].
  rewrite Hd in *. simpl in Hnd.
  assert (∀ i, dict_get idx etype = Some i → i = None) as Hnone.
  { intros i Hi. pose proof (index_dict_get g m d idx etype Hnd Hidx) as Hik.
    rewrite Hi in Hik. destruct (dict_get d etype) as [c|]; [|done].
    unfold exclude_relation in Hik. rewrite Hm in Hik. by injection Hik. }
  split.
  - destruct (index_select_dict_get _ _ _ _ Hnd Hcsc) as (d'&->&Hget).
    simpl. specialize (Hget etype).
    destruct (dict_get d etype) as [c|], (dict_get d' etype) as [c'|]; try done.
    destruct Hget as (i&Hi&Hleaf). apply Hnone in Hi as ->.
    simpl in Hleaf. by injection Hleaf as ->.
  - destruct (original_edge_ids g) as [|t|de] eqn:He.
    + simpl in Heids. by injection Heids as <-.
    + done.
    + simpl in Hnde.
      destruct (index_select_dict_get _ _ _ _ Hnde Heids) as (de'&->&Hget).
      simpl. specialize (Hget etype).
      destruct (dict_get de etype) as [t|], (dict_get de' etype) as [t'|]; try done.
      destruct Hget as (i&Hi&Hleaf). apply Hnone in Hi as ->.
      simpl in Hleaf. by injection Hleaf as ->.
Qed.

(** ** A well-formed homogeneous call returns *)

Lemma nonzero_retain_index (mask : list bool) :
  retain_index (length mask) (nonzero mask).
Proof.
  split.
  - apply StronglySorted_lt_le, nonzero_from_sorted.
  - apply Forall_forall. intros i [Hi Hl]%nonzero_from_spec.
    apply lookup_lt_Some in Hl. lia.
Qed.

Lemma exclude_edges_homo_total (g : SampledSubgraph) (c : CSCFormatBase) (e : edge_list) :
  sampled_csc g = POne c →
  valid_csc c →
  rows_resolve (original_row_node_ids g) c →
  columns_labelled (original_column_node_ids g) c →
  edge_ids_aligned (length (indices c)) (original_edge_ids g) →
  edge_list_wf e →
  ∃ g', exclude_edges etype_str_to_tuple dt dt_ex g (EdgesHomo e) true = Ok g'.
Proof.
  intros Hc Hvalid Hrow Hcol Heids Hwf.
  destruct (to_reverse_ids_Ok c _ _ Hvalid Hrow Hcol) as (src&Hrev&Hsrc%Forall2_length&Hdst).
  set (dst := expand (column_ids (original_column_node_ids g) c) (indptr c)) in *.
  set (mask := map negb (isin (zip_with (pack_key dt) src dst) (edge_keys dt_ex e))).
  assert (retain_index (length (indices c)) (nonzero mask)) as Hri.
  { replace (length (indices c)) with (length mask); [apply nonzero_retain_index|].
    unfold mask, isin. rewrite !length_map, length_zip_with. lia. }
  destruct (select_csc_total c (nonzero mask) Hri) as (ys&Hsel&_).
  unfold exclude_edges. rewrite Hc. simpl. rewrite Hrev. simpl.
  rewrite exclude_dispatch_keys by (done || congruence). simpl.
  unfold _slice_subgraph. rewrite Hc. simpl. fold mask. rewrite Hsel. simpl.
  destruct (original_edge_ids g) as [|t|de]; simpl in *; [by eexists| |done].
  destruct Hri as [_ Hr]. rewrite <- Heids in Hr.
  destruct (gathered_total t (nonzero mask) Hr) as [ts Hts].
  unfold select_tensor.
  assert (getitem t (nonzero mask) = Ok ts) as ->; [|by eexists].
  apply getitem_Ok; [|done].
  eapply Forall_impl; [exact Hr|]. intros; simpl in *; lia.
Qed.

(** ** Ids beyond 32 bits *)

(** C10: the packed key of int64 tensors separates pairs of 32-bit ids,
    and nothing checks that ids are such: on the one-edge subgraph whose
    single column has original id 2^32, the sampled edge (0, 2^32) differs
    from the excluded pair (1, 0) but shares its key, and a call with the
    flag set returns, without raising, a subgraph that has lost the
    edge. *)
Theorem packed_key_collision :
  (∀ s1 d1 s2 d2,
     id32 s1 → id32 d1 → id32 s2 → id32 d2 →
     pack_key int64 s1 d1 = pack_key int64 s2 d2 → s1 = s2 ∧ d1 = d2)
  ∧ _to_reverse_ids wide_csc IdsNone (IdsOne [2 ^ 32]) = Ok ([0], [2 ^ 32])
  ∧ ((0, 2 ^ 32) ∉ zip [1] [0])
  ∧ pack_key int64 0 (2 ^ 32) = pack_key int64 1 0
  ∧ exclude_edges etype_str_to_tuple int64 int64 wide_subgraph
      (EdgesHomo (EdgePair [1] [0])) true
    = Ok (mkSubgraph (POne (mkCSC [0; 0] [])) (IdsOne [2 ^ 32]) IdsNone PNone).
Proof.
  split; [apply pack_key_inj|].
  split; [done|]. split; [|split; [done|]].
  - intros Hin. apply elem_of_cons in Hin as [Heq|Hin]; [done|].
    by apply elem_of_nil in Hin.
  - by vm_compute.
Qed.

(** ** Exclusion sets that match nothing *)

Lemma dict_get_fmap_key {A B : Type} (F : string → A → B) (d : dict A) (k : string) :
  dict_get (map (λ kv, (kv.1, F kv.1 kv.2)) d) k = F k <$> dict_get d k.
Proof.
  induction d as [|[k' v] d IH]; simpl; [done|].
  destruct (decide (k' = k)) as [->|Hne]; done.
Qed.

Lemma dict_for_diag {A B : Type} (body : string → A → result B)
    (F : string → A → B) (d : dict A) :
  NoDup (dict_keys d) →
  (∀ k v, dict_get d k = Some v → body k v = Ok (F k v)) →
  dict_for body d [] = Ok (map (λ kv, (kv.1, F kv.1 kv.2)) d).
Proof.
  intros Hnd Hbody. apply dict_for_Ok; [done|].
  apply Forall2_fmap_r, Forall_Forall2_diag, Forall_forall.
  intros [k v] Hin. simpl. split; [done|].
  apply Hbody. by apply dict_get_elem_of.
Qed.

Lemma dict_fmap_id {A : Type} (d : dict A) :
  map (λ kv, (kv.1, kv.2)) d = d.
Proof. induction d as [|[k v] d IH]; simpl; [done|]. by rewrite IH. Qed.

(** C5: a well-formed call whose exclusion set matches no sampled edge,
    the empty exclusion set in particular, returns without raising a
    subgraph equal to the one it was given: same structures, same node-id
    maps, same edge ids. *)
Theorem exclude_edges_unmatched (g : SampledSubgraph) (edges : edges_arg) :
  ignorable etype_str_to_tuple dt dt_ex g edges →
  exclude_edges etype_str_to_tuple dt dt_ex g edges true = Ok g.
Proof.
  unfold ignorable, exclude_edges. destruct g as [csc col row eids]; simpl.
  destruct csc as [|c|d], edges as [e|m]; try done; simpl.
  - intros (Hvalid&Hrow&Hcol&Heids&Hwf&Hun).
    destruct (unmatched_index dt dt_ex c row col e Hvalid Hrow Hcol Hwf Hun)
      as (reverse_edges&->&Hidx).
    simpl. rewrite Hidx. simpl. unfold _slice_subgraph. simpl.
    rewrite select_csc_arange by done. simpl.
    destruct eids as [|t|de]; simpl in *; [done| |done].
    unfold select_tensor. rewrite <- Heids, getitem_arange. done.
  - intros (Hnd&Heids&Hrel).
    assert (∀ k c, dict_get d k = Some c →
              exclude_relation etype_str_to_tuple dt dt_ex (mkSubgraph (PDict d) col row eids)
                m true k c = Ok (kept_all m k c)) as Hindex.
    { intros k c Hk. unfold exclude_relation, kept_all, etype_tuple.
      cbn [original_row_node_ids original_column_node_ids].
      destruct (m !! k) as [e|] eqn:Hm; [|done].
      destruct (Hrel k c e Hk Hm)
        as (src_type&rel&dst_type&row_map&column_map&Het&Hr&Hc
            &Hvalid&Hrow&Hcol&_&Hwf&Hun).
      destruct (unmatched_index dt dt_ex c row_map column_map e Hvalid Hrow Hcol Hwf Hun)
        as (reverse_edges&Hrev&Hidx).
      rewrite Het. cbn [mbind result_bind]. rewrite Hr. cbn [mbind result_bind].
      rewrite Hc. cbn [mbind result_bind]. rewrite Hrev. cbn [mbind result_bind].
      by rewrite Hidx. }
    rewrite (dict_for_diag _ (kept_all m) d Hnd Hindex). simpl.
    set (idx := map (λ kv, (kv.1, kept_all m kv.1 kv.2)) d).
    assert (∀ k c, dict_get d k = Some c →
              index_getitem idx k = Ok (kept_all m k c)) as Hget.
    { intros k c Hk. unfold index_getitem, idx.
      by rewrite dict_get_fmap_key, Hk. }
    unfold _slice_subgraph. simpl.
    rewrite (dict_for_diag _ (λ _ c, c) d Hnd); cycle 1.
    { intros k c Hk. rewrite (Hget k c Hk). simpl.
      unfold kept_all. destruct (m !! k) as [e|] eqn:Hm; simpl; [|done].
      destruct (Hrel k c e Hk Hm) as (?&?&?&?&?&_&_&_&Hvalid&_).
      by apply select_csc_arange. }
    rewrite dict_fmap_id. simpl.
    destruct eids as [|t|de]; simpl in *; [done|done|].
    destruct Heids as [Hnde Hsub].
    rewrite (dict_for_diag _ (λ _ t, t) de Hnde); cycle 1.
    { intros k t Hk.
      assert (k ∈ dict_keys d) as Hkd.
      { apply Hsub. unfold dict_keys. apply list_elem_of_fmap.
        exists (k, t). split; [done|]. by apply dict_get_Some_elem_of. }
      destruct (dict_get d k) as [c|] eqn:Hdk; [|by apply dict_get_None in Hdk].
      rewrite (Hget k c Hdk). simpl.
      unfold kept_all. destruct (m !! k) as [e|] eqn:Hm; simpl; [|done].
      destruct (Hrel k c e Hdk Hm) as (?&?&?&?&?&_&_&_&_&_&_&Hlen&_).
      unfold select_tensor. rewrite <- (Hlen t Hk). apply getitem_arange. }
    by rewrite dict_fmap_id.
Qed.

End exclude_edges_properties.

(** ** The docstring example and other instances *)

Ltac concrete := repeat split; simpl; repeat constructor; try lia; try done.

Example exclude_edges_doc :
  exclude_edges split_etype int64 int64 doc_subgraph doc_edges true = Ok doc_result.
Proof. by vm_compute. Qed.

(** The same structure held in int32 tensors, as a homogeneous subgraph:
    excluding the pair (99, 11), which is no edge of it, removes the edge
    (14, 11) that shares its destination. *)
Example exclude_edges_int32_doc :
  exclude_edges split_etype int32 int32 doc_homo_subgraph
    (EdgesHomo (EdgePair [99] [11])) true
  = Ok (mkSubgraph (POne (mkCSC [0; 1; 1; 2] [0; 2])) (IdsOne [10; 11; 12])
          (IdsOne [13; 14; 15]) (POne [19; 21])).
Proof. by vm_compute. Qed.

Lemma csc_validity_preserved_witness :
  (∃ c', select_csc doc_csc [0; 2] = Ok c' ∧ same_columns_valid doc_csc c')
  ∧ field_rel same_columns_valid (sampled_csc doc_subgraph) (sampled_csc doc_result).
Proof.
  split.
  - apply (proj1 (csc_validity_preserved split_etype int64 int64)); concrete.
  - apply (proj2 (csc_validity_preserved split_etype int64 int64) doc_subgraph doc_edges true).
    + concrete.
    + simpl. apply NoDup_singleton.
    + by vm_compute.
Defined.

Lemma exclude_edges_frame_witness :
  original_row_node_ids doc_result = original_row_node_ids doc_subgraph
  ∧ original_column_node_ids doc_result = original_column_node_ids doc_subgraph
  ∧ ∀ m etype,
      doc_edges = EdgesHetero m → m !! etype = None →
      field_get (sampled_csc doc_result) etype
      = field_get (sampled_csc doc_subgraph) etype
      ∧ field_get (original_edge_ids doc_result) etype
        = field_get (original_edge_ids doc_subgraph) etype.
Proof.
  apply (exclude_edges_frame split_etype int64 int64 doc_subgraph doc_result doc_edges true).
  - simpl. apply NoDup_singleton.
  - simpl. apply NoDup_singleton.
  - by vm_compute.
Defined.

Lemma exclude_edges_homogeneity_guard_witness :
  exclude_edges split_etype int64 int64 doc_homo_subgraph doc_edges true
  = Err (AssertionError msg_homogeneity)
  ∧ exclude_edges split_etype int64 int64 doc_subgraph doc_edges true
    ≠ Err (AssertionError msg_homogeneity).
Proof.
  split.
  - apply (proj1 (exclude_edges_homogeneity_guard split_etype int64 int64 doc_homo_subgraph
                    doc_edges true)). simpl. done.
  - apply (proj2 (exclude_edges_homogeneity_guard split_etype int64 int64 doc_subgraph
                    doc_edges true)). reflexivity.
Defined.

Lemma extra_relation_ignored_witness :
  exclude_edges split_etype int64 int64 doc_subgraph
    (EdgesHetero (<["B:other:A"%string := EdgePair [10] [13]]>
                    {[ "A:relation:B"%string := EdgePair [14; 15] [11; 12] ]})) true
  = exclude_edges split_etype int64 int64 doc_subgraph doc_edges true.
Proof.
  apply (extra_relation_ignored split_etype int64 int64 doc_subgraph
           [("A:relation:B"%string, doc_csc)]).
  - reflexivity.
  - simpl. intros Hin. apply list_elem_of_singleton in Hin. discriminate Hin.
Defined.

Lemma packed_key_collision_witness :
  id32 14 ∧ id32 11 ∧ (pack_key int64 14 11 = pack_key int64 14 11 → 14 = 14 ∧ 11 = 11).
Proof.
  split; [unfold id32; lia|]. split; [unfold id32; lia|].
  apply (proj1 (packed_key_collision split_etype)); unfold id32; lia.
Defined.

Lemma exclude_edges_unmatched_witness :
  exclude_edges split_etype int64 int64 doc_subgraph (EdgesHetero ∅) true = Ok doc_subgraph
  ∧ exclude_edges split_etype int64 int64 doc_homo_subgraph (EdgesHomo (EdgePair [] [])) true
    = Ok doc_homo_subgraph
  ∧ exclude_edges split_etype int64 int64 doc_homo_subgraph
      (EdgesHomo (EdgeTable [(999, 999)])) true = Ok doc_homo_subgraph
  ∧ exclude_edges split_etype int64 int64 doc_subgraph
      (EdgesHetero {[ "A:relation:B"%string := EdgePair [999] [999] ]}) true
    = Ok doc_subgraph.
Proof.
  split; [|split; [|split]]; apply exclude_edges_unmatched.
  - split; [apply NoDup_singleton|]. split.
    + split; [apply NoDup_singleton|done].
    + intros etype c e _ Hm. by rewrite lookup_empty in Hm.
  - unfold ignorable. split; [concrete|]. split; [concrete|]. split; [concrete|].
    split; [concrete|]. split; [concrete|].
    unfold unmatched. vm_compute sampled_keys. vm_compute edge_keys.
    repeat constructor; intros Hin; by apply elem_of_nil in Hin.
  - unfold ignorable. split; [concrete|]. split; [concrete|]. split; [concrete|].
    split; [concrete|]. split; [concrete|].
    unfold unmatched. vm_compute sampled_keys. vm_compute edge_keys.
    repeat constructor; intros Hin; apply list_elem_of_singleton in Hin;
      discriminate Hin.
  - split; [apply NoDup_singleton|]. split.
    + split; [apply NoDup_singleton|done].
    + intros etype c e Hd Hm. simpl in Hd.
      destruct (decide ("A:relation:B"%string = etype)) as [<-|]; [|done].
      injection Hd as <-. rewrite lookup_singleton_eq in Hm. injection Hm as <-.
      exists "A"%string, "relation"%string, "B"%string,
        (IdsOne [13; 14; 15]), (IdsOne [10; 11; 12]).
      split; [done|]. split; [done|]. split; [done|].
      split; [concrete|]. split; [concrete|]. split; [concrete|].
      split.
      { intros t. simpl. intros [= <-]. done. }
      split; [done|].
      unfold unmatched. vm_compute sampled_keys. vm_compute edge_keys.
      repeat constructor; intros Hin; apply list_elem_of_singleton in Hin;
        discriminate Hin.
Defined.

(** * Further properties of the module *)

(** ** The exclusion engine on pairs *)

Lemma packed_pair_elem_of (s d : Z) (ex_src ex_dst : tensor) :
  id32 s → id32 d → Forall id32 ex_src → Forall id32 ex_dst →
  pack_key int64 s d ∈ zip_with (pack_key int64) ex_src ex_dst
  ↔ (s, d) ∈ zip ex_src ex_dst.
Proof.
  intros Hs Hd Hxs Hxd. rewrite elem_of_zip_with_pack_key. split.
  - intros (s'&d'&Hin&Heq).
    pose proof (elem_of_zip_l _ _ _ _ Hin) as Hs'.
    pose proof (elem_of_zip_r _ _ _ _ Hin) as Hd'.
    rewrite Forall_forall in Hxs, Hxd.
    apply pack_key_inj in Heq as [-> ->]; auto.
  - intros Hin. by exists s, d.
Qed.

Lemma pair_keys_subseteq (dt : dtype) (ex_src ex_dst ex_src' ex_dst' : tensor) :
  zip ex_src ex_dst ⊆ zip ex_src' ex_dst' →
  zip_with (pack_key dt) ex_src ex_dst ⊆ zip_with (pack_key dt) ex_src' ex_dst'.
Proof.
  intros Hsub k (s&d&Hin&->)%elem_of_zip_with_pack_key.
  apply elem_of_zip_with_pack_key. exists s, d. split; [by apply Hsub|done].
Qed.

(** X1: the table form of the engine, on int64 tensors.  When the endpoint
    sequences have equal length and every id, sampled or in a row of the
    table, fits in 32 bits, [_exclude_homo_edges_2] returns the increasing
    sequence of the positions whose (src, dst) pair is not a row of the
    table. *)
Theorem exclude_homo_edges_2_exact (src dst : tensor) (rows : list (Z * Z)) :
  length src = length dst →
  Forall id32 src → Forall id32 dst →
  Forall (λ row, id32 row.1 ∧ id32 row.2) rows →
  ∃ index,
    _exclude_homo_edges_2 int64 int64 (src, dst) rows true = Ok index
    ∧ StronglySorted Z.lt index
    ∧ ∀ i, i ∈ index ↔
        0 ≤ i ∧ ∃ s d, src !! Z.to_nat i = Some s ∧ dst !! Z.to_nat i = Some d
                       ∧ (s, d) ∉ rows.
Proof.
  intros Hlen Hsrc Hdst Hrows.
  assert (Forall id32 rows.*1 ∧ Forall id32 rows.*2) as [Hx1 Hx2].
  { split; apply Forall_fmap; (eapply Forall_impl; [exact Hrows|]);
      by intros [? ?] [? ?]. }
  eexists. split; [by apply exclude_homo_edges_2_keys|].
  split; [apply nonzero_from_sorted|].
  intros i. rewrite retained_keys_spec. apply and_iff_compat_l.
  rewrite Forall_forall in Hsrc, Hdst.
  split.
  - intros (v&Hv&Hnot). apply lookup_zip_with_Some in Hv as (s&d&->&Hs&Hd).
    exists s, d. repeat split; try done. intros Hin. apply Hnot.
    apply packed_pair_elem_of; eauto using list_elem_of_lookup_2.
    by rewrite zip_fst_snd.
  - intros (s&d&Hs&Hd&Hnot). exists (pack_key int64 s d). split.
    + apply lookup_zip_with_Some. by exists s, d.
    + intros Hin. apply Hnot.
      apply packed_pair_elem_of in Hin; eauto using list_elem_of_lookup_2.
      by rewrite zip_fst_snd in Hin.
Qed.

Lemma exclude_homo_edges_2_exact_witness :
  ∃ index,
    _exclude_homo_edges_2 int64 int64 ([13; 14; 15], [10; 11; 12])
      [(14, 11); (15, 10)] true
    = Ok index
    ∧ StronglySorted Z.lt index
    ∧ ∀ i, i ∈ index ↔
        0 ≤ i ∧ ∃ s d, [13; 14; 15] !! Z.to_nat i = Some s
                       ∧ [10; 11; 12] !! Z.to_nat i = Some d
                       ∧ (s, d) ∉ [(14, 11); (15, 10)].
Proof.
  apply exclude_homo_edges_2_exact; try reflexivity;
    repeat constructor; unfold id32; simpl; lia.
Defined.

(** X2: excluding more never brings an edge back.  If every pair of one
    exclusion list is a pair of a second one, every position the engine
    retains for the second list is retained for the first, whatever the
    size of the ids and the integer types of the tensors. *)
Theorem exclude_homo_edges_antitone (dt dt_ex : dtype)
    (src dst ex_src ex_dst ex_src' ex_dst' : tensor) :
  length src = length dst →
  length ex_src = length ex_dst → length ex_src' = length ex_dst' →
  zip ex_src ex_dst ⊆ zip ex_src' ex_dst' →
  ∃ index index',
    _exclude_homo_edges dt dt_ex (src, dst) (ex_src, ex_dst) true = Ok index
    ∧ _exclude_homo_edges dt dt_ex (src, dst) (ex_src', ex_dst') true = Ok index'
    ∧ index' ⊆ index.
Proof.
  intros Hlen Hex Hex' Hsub. do 2 eexists.
  split; [by apply exclude_homo_edges_keys|].
  split; [by apply exclude_homo_edges_keys|].
  intros i. rewrite !retained_keys_spec.
  intros (Hi&v&Hv&Hnot). split; [done|]. exists v. split; [done|].
  intros Hin. apply Hnot. by eapply pair_keys_subseteq.
Qed.

Lemma exclude_homo_edges_antitone_witness :
  ∃ index index',
    _exclude_homo_edges int64 int64 ([13; 14; 15], [10; 11; 12]) ([14], [11]) true
    = Ok index
    ∧ _exclude_homo_edges int64 int64 ([13; 14; 15], [10; 11; 12])
        ([15; 14], [12; 11]) true
      = Ok index'
    ∧ index' ⊆ index.
Proof.
  apply exclude_homo_edges_antitone; try reflexivity.
  intros p Hp. apply list_elem_of_singleton in Hp as ->. simpl. right. left.
Defined.

(** ** The exclusion engine on int32 tensors *)

Lemma pack_key_int32 (s d : Z) : pack_key int32 s d = d.
Proof. unfold pack_key, shl32. apply Z.lor_0_l. Qed.

Lemma int32_keys (src dst : tensor) :
  length src = length dst → zip_with (pack_key int32) src dst = dst.
Proof.
  revert dst. induction src as [|s src IH]; intros [|d dst] Hlen; simpl in *;
    try done.
  rewrite pack_key_int32. f_equal. apply IH. lia.
Qed.

(** X14: on int32 tensors the source ids play no part.  When the endpoint
    sequences have equal length, [_exclude_homo_edges] returns the
    increasing sequence of the positions whose destination id is not the
    destination of an excluded pair, whatever the source ids are. *)
Theorem exclude_homo_edges_int32_key (src dst ex_src ex_dst : tensor) :
  length src = length dst → length ex_src = length ex_dst →
  ∃ index,
    _exclude_homo_edges int32 int32 (src, dst) (ex_src, ex_dst) true = Ok index
    ∧ StronglySorted Z.lt index
    ∧ ∀ i, i ∈ index ↔
        0 ≤ i ∧ ∃ d, dst !! Z.to_nat i = Some d ∧ d ∉ ex_dst.
Proof.
  intros Hlen Hex. eexists. split; [by apply exclude_homo_edges_keys|].
  split; [apply nonzero_from_sorted|].
  intros i. rewrite retained_keys_spec. by rewrite !int32_keys.
Qed.

Lemma exclude_homo_edges_int32_key_witness :
  ∃ index,
    _exclude_homo_edges int32 int32 ([13; 14; 15], [10; 11; 12]) ([99], [11]) true
    = Ok index
    ∧ StronglySorted Z.lt index
    ∧ ∀ i, i ∈ index ↔
        0 ≤ i ∧ ∃ d, [10; 11; 12] !! Z.to_nat i = Some d ∧ d ∉ [11].
Proof.
  apply (exclude_homo_edges_int32_key [13; 14; 15] [10; 11; 12] [99] [11]);
    reflexivity.
Defined.

(** ** Row indices outside the row map *)

Lemma index_select_out_of_range (t index : tensor) :
  Exists (λ i, ¬ (0 ≤ i < Z.of_nat (length t))) index →
  index_select t index = Err IndexError.
Proof.
  unfold index_select. induction index as [|i index IH]; intros Hex.
  - by apply Exists_nil in Hex.
  - simpl. destruct ((0 <=? i) && (i <? Z.of_nat (length t))) eqn:Hb; [|done].
    apply andb_true_iff in Hb as [Hlo%Z.leb_le Hhi%Z.ltb_lt].
    destruct (lookup_lt_is_Some_2 t (Z.to_nat i)) as [x ->]; [lia|]. simpl.
    apply Exists_cons in Hex as [Hbad|Hex]; [lia|].
    by rewrite IH.
Qed.

(** X3: with a tensor as row map, [_to_reverse_ids] raises [IndexError]
    exactly when some row index of the structure is negative or not below
    the length of the row map, whatever the column map. *)
Theorem to_reverse_ids_index_error (c : CSCFormatBase) (t : tensor)
    (column_map : ids_field) :
  _to_reverse_ids c (IdsOne t) column_map = Err IndexError
  ↔ Exists (λ x, ¬ (0 ≤ x < Z.of_nat (length t))) (indices c).
Proof.
  unfold _to_reverse_ids. split.
  - intros Herr.
    destruct (decide (Forall (λ x, 0 ≤ x < Z.of_nat (length t)) (indices c)))
      as [Hall|Hnot].
    2: { apply not_Forall_Exists in Hnot; [|apply _].
         eapply Exists_impl; [exact Hnot|]. by intros x Hx. }
    destruct (gathered_total t (indices c) Hall) as [ys Hys].
    assert (index_select t (indices c) = Ok ys) as Hsel.
    { apply index_select_Ok. split; [done|].
      eapply Forall_impl; [exact Hall|]. intros; simpl in *; lia. }
    rewrite Hsel in Herr. by destruct column_map.
  - intros Hex. by rewrite index_select_out_of_range.
Qed.

(** ** The resolver after slicing *)

Lemma count_lt_cons (a : Z) (l : tensor) (v : Z) :
  count_lt (a :: l) v = (if decide (a < v) then 1 else 0) + count_lt l v.
Proof. unfold count_lt. rewrite filter_cons. case_decide; simpl; lia. Qed.

Lemma count_lt_nonneg (l : tensor) (v : Z) : 0 ≤ count_lt l v.
Proof. unfold count_lt. lia. Qed.

(** In a sorted sequence the entries below [v] are the first
    [count_lt idx v] ones. *)
Lemma count_lt_lookup (idx : tensor) (v : Z) (k : nat) (x : Z) :
  StronglySorted Z.le idx → idx !! k = Some x →
  Z.of_nat k < count_lt idx v ↔ x < v.
Proof.
  intros Hs. revert k. induction Hs as [|a l Hs IH Hall]; intros k Hk; [done|].
  rewrite count_lt_cons. pose proof (count_lt_nonneg l v) as Hnn.
  rewrite Forall_forall in Hall.
  destruct (decide (a < v)) as [Hav|Hav].
  - destruct k as [|k]; simpl in Hk.
    + injection Hk as <-. lia.
    + specialize (IH k Hk). lia.
  - rewrite count_lt_none.
    2: { apply Forall_forall. intros y Hy. specialize (Hall y Hy). lia. }
    destruct k as [|k]; simpl in Hk.
    + injection Hk as <-. lia.
    + pose proof (Hall x (list_elem_of_lookup_2 _ _ _ Hk)). lia.
Qed.

Lemma owning_column (l : tensor) (p0 pl i : Z) :
  StronglySorted Z.le l → head l = Some p0 → last l = Some pl → p0 ≤ i < pl →
  ∃ j a b, l !! j = Some a ∧ l !! S j = Some b ∧ a ≤ i < b.
Proof.
  intros Hs. revert p0. induction Hs as [|a0 l Hs IH _]; intros p0 Hh Hl Hi; [done|].
  simpl in Hh. injection Hh as <-.
  destruct l as [|b0 l]; [simpl in Hl; injection Hl as <-; lia|].
  rewrite last_cons_cons in Hl.
  destruct (decide (i < b0)) as [Hlt|Hge].
  - exists 0%nat, a0, b0. simpl. repeat split; lia.
  - destruct (IH b0) as (j&a&b&Ha&Hb&Hab); [done|done|lia|].
    exists (S j), a, b. done.
Qed.

Lemma sliced_indptr_sorted (idx indptr : tensor) :
  StronglySorted Z.le indptr → StronglySorted Z.le (map (count_lt idx) indptr).
Proof.
  apply (StronglySorted_fmap _ Z.le Z.le). intros x y. apply count_lt_mono.
Qed.

(** Expanding the sliced boundaries gives the expansion of the old ones,
    gathered at the retain-index. *)
Lemma expand_sliced (ids indptr idx : tensor) (n : nat) :
  StronglySorted Z.le indptr →
  head indptr = Some 0 → last indptr = Some (Z.of_nat n) →
  (length indptr - 1 ≤ length ids)%nat →
  retain_index n idx →
  gathered (expand ids indptr) idx (expand ids (map (count_lt idx) indptr)).
Proof.
  intros Hs Hhead Hlast Hids [Hsi Hri].
  pose proof (sliced_indptr_sorted idx indptr Hs) as Hs'.
  assert (head (map (count_lt idx) indptr) = Some 0) as Hhead'.
  { destruct indptr as [|p ps]; [done|]. simpl in *. injection Hhead as ->.
    f_equal. apply count_lt_none. eapply Forall_impl; [exact Hri|].
    intros; simpl in *; lia. }
  assert (last (map (count_lt idx) indptr) = Some (Z.of_nat (length idx))) as Hlast'.
  { change (map (count_lt idx) indptr) with (count_lt idx <$> indptr).
    rewrite fmap_last, Hlast. simpl. f_equal. apply count_lt_all.
    eapply Forall_impl; [exact Hri|]. intros; simpl in *; lia. }
  apply Forall2_same_length_lookup_2.
  - rewrite (expand_length _ _ 0 _ Hs' Hhead' Hlast'); [lia|].
    by rewrite length_map.
  - intros k i y Hk Hy.
    rewrite Forall_forall in Hri.
    pose proof (Hri i (list_elem_of_lookup_2 _ _ _ Hk)) as Hi.
    destruct (owning_column indptr 0 (Z.of_nat n) i Hs Hhead Hlast Hi)
      as (j&a&b&Ha&Hb&Hab).
    destruct (lookup_lt_is_Some_2 ids j) as [id Hid].
    { apply lookup_lt_Some in Hb. lia. }
    pose proof (expand_lookup ids indptr 0 j a b i id Hs Hhead Ha Hb Hab Hid) as Hold.
    rewrite Z.sub_0_r in Hold. rewrite Hold. f_equal.
    pose proof (count_lt_lookup idx a k i Hsi Hk) as Hlo.
    pose proof (count_lt_lookup idx b k i Hsi Hk) as Hhi.
    pose proof (expand_lookup ids (map (count_lt idx) indptr) 0 j
                  (count_lt idx a) (count_lt idx b) (Z.of_nat k) id Hs' Hhead') as Hnew.
    rewrite Z.sub_0_r, Nat2Z.id in Hnew.
    rewrite Hnew in Hy; [by injection Hy| | |lia|done].
    + by rewrite list_lookup_fmap, Ha.
    + by rewrite list_lookup_fmap, Hb.
Qed.

(** Slicing keeps a structure within the domain of the resolver. *)
Lemma sliced_rows_resolve (c c' : CSCFormatBase) (row_map : ids_field) (idx : tensor) :
  rows_resolve row_map c → gathered (indices c) idx (indices c') →
  rows_resolve row_map c'.
Proof.
  destruct row_map as [|t|m]; simpl; [done| |done].
  intros Hall Hg. rewrite Forall_forall in Hall. apply Forall_forall.
  intros x Hx. apply list_elem_of_lookup in Hx as [k Hk].
  destruct (Forall2_lookup_r _ _ _ _ _ Hg Hk) as (i&_&Hi).
  apply Hall. by eapply list_elem_of_lookup_2.
Qed.

Lemma sliced_reverse_ids (c : CSCFormatBase) (row_map column_map : ids_field)
    (idx : tensor) :
  valid_csc c → rows_resolve row_map c → columns_labelled column_map c →
  retain_index (length (indices c)) idx →
  ∃ c' src dst src' dst',
    select_csc c idx = Ok c'
    ∧ valid_csc c' ∧ rows_resolve row_map c' ∧ columns_labelled column_map c'
    ∧ gathered (indices c) idx (indices c')
    ∧ _to_reverse_ids c row_map column_map = Ok (src, dst)
    ∧ length src = length (indices c) ∧ length dst = length (indices c)
    ∧ _to_reverse_ids c' row_map column_map = Ok (src', dst')
    ∧ gathered src idx src' ∧ gathered dst idx dst'.
Proof.
  intros Hvalid Hrow Hcol Hri.
  destruct (select_csc_total c idx Hri) as (ys&Hsel&Hys).
  set (c' := mkCSC (map (count_lt idx) (indptr c)) ys) in *.
  pose proof (retain_index_nonneg _ _ Hri) as Hpos.
  destruct (sliced_csc_valid c c' idx Hvalid (proj1 Hri) Hpos Hsel) as [Hvalid' Hlen].
  assert (rows_resolve row_map c') as Hrow' by (by eapply sliced_rows_resolve).
  assert (columns_labelled column_map c') as Hcol'.
  { destruct column_map; simpl in *; [done| |done]. by rewrite length_map. }
  destruct (to_reverse_ids_Ok c row_map column_map Hvalid Hrow Hcol)
    as (src&Hrev&Hsrc&Hdst).
  destruct (to_reverse_ids_Ok c' row_map column_map Hvalid' Hrow' Hcol')
    as (src'&Hrev'&Hsrc'&Hdst').
  assert (column_ids column_map c' = column_ids column_map c) as Hids.
  { unfold column_ids. destruct column_map; simpl; by rewrite ?length_map. }
  rewrite Hids in Hrev', Hdst'.
  exists c', src, (expand (column_ids column_map c) (indptr c)), src',
    (expand (column_ids column_map c) (indptr c')).
  split; [done|]. split; [done|]. split; [done|]. split; [done|]. split; [done|].
  split; [done|]. split; [symmetry; by eapply Forall2_length|]. split; [done|].
  split; [done|]. split.
  - apply Forall2_same_length_lookup_2.
    + apply Forall2_length in Hys, Hsrc'. simpl in *. congruence.
    + intros k i y Hk Hy.
      destruct (Forall2_lookup_l _ _ _ _ _ Hys Hk) as (x&Hx&Hix).
      destruct (Forall2_lookup_l _ _ _ _ _ Hsrc' Hx) as (y'&Hy'&Hxy').
      destruct (Forall2_lookup_l _ _ _ _ _ Hsrc Hix) as (y''&Hy''&Hxy'').
      simpl in *. congruence.
  - pose proof (valid_csc_strongly_sorted c Hvalid) as Hs.
    destruct Hvalid as (_&Hhead&Hlast).
    apply (expand_sliced _ _ _ (length (indices c))); try done.
    by rewrite column_ids_length.
Qed.

(** X4: slicing commutes with resolving.  On a well-formed homogeneous
    subgraph and a retain-index, [_slice_subgraph] returns a structure
    whose original-id endpoints are those of the input gathered at the
    index, together with the edge ids gathered at the same index: every
    surviving edge keeps its source, its destination and its id. *)
Theorem slice_then_resolve (g : SampledSubgraph) (c : CSCFormatBase) (idx : tensor) :
  sampled_csc g = POne c →
  valid_csc c →
  rows_resolve (original_row_node_ids g) c →
  columns_labelled (original_column_node_ids g) c →
  edge_ids_aligned (length (indices c)) (original_edge_ids g) →
  retain_index (length (indices c)) idx →
  ∃ c' new_eids src dst src' dst',
    _slice_subgraph g (ITensor idx)
    = Ok (POne c', original_column_node_ids g, original_row_node_ids g, new_eids)
    ∧ _to_reverse_ids c (original_row_node_ids g) (original_column_node_ids g)
      = Ok (src, dst)
    ∧ _to_reverse_ids c' (original_row_node_ids g) (original_column_node_ids g)
      = Ok (src', dst')
    ∧ gathered src idx src' ∧ gathered dst idx dst'
    ∧ match original_edge_ids g, new_eids with
      | PNone, PNone => True
      | POne t, POne t' => gathered t idx t'
      | _, _ => False
      end.
Proof.
  intros Hc Hvalid Hrow Hcol Heids Hri.
  destruct (sliced_reverse_ids c _ _ idx Hvalid Hrow Hcol Hri)
    as (c'&src&dst&src'&dst'&Hsel&_&_&_&_&Hrev&_&_&Hrev'&Hsrc&Hdst).
  unfold _slice_subgraph. rewrite Hc. simpl. rewrite Hsel. simpl.
  destruct (original_edge_ids g) as [|t|de]; simpl in *; [| |done].
  - by exists c', PNone, src, dst, src', dst'.
  - destruct Hri as [_ Hr]. rewrite <- Heids in Hr.
    destruct (gathered_total t idx Hr) as [ts Hts].
    exists c', (POne ts), src, dst, src', dst'. unfold select_tensor.
    assert (getitem t idx = Ok ts) as ->; [|done].
    apply getitem_Ok; [|done].
    eapply Forall_impl; [exact Hr|]. intros; simpl in *; lia.
Qed.

Lemma slice_then_resolve_witness :
  ∃ c' new_eids src dst src' dst',
    _slice_subgraph doc_homo_subgraph (ITensor [0; 2])
    = Ok (POne c', original_column_node_ids doc_homo_subgraph,
          original_row_node_ids doc_homo_subgraph, new_eids)
    ∧ _to_reverse_ids doc_csc (original_row_node_ids doc_homo_subgraph)
        (original_column_node_ids doc_homo_subgraph) = Ok (src, dst)
    ∧ _to_reverse_ids c' (original_row_node_ids doc_homo_subgraph)
        (original_column_node_ids doc_homo_subgraph) = Ok (src', dst')
    ∧ gathered src [0; 2] src' ∧ gathered dst [0; 2] dst'
    ∧ match original_edge_ids doc_homo_subgraph, new_eids with
      | PNone, PNone => True
      | POne t, POne t' => gathered t [0; 2] t'
      | _, _ => False
      end.
Proof. apply (slice_then_resolve doc_homo_subgraph doc_csc); concrete. Defined.

(** ** What [exclude_edges] leaves of a homogeneous subgraph *)

Lemma gathered_nonzero_from {A : Type} (l ys : list A) (mask : list bool) (a : Z) :
  (length mask ≤ length l)%nat →
  Forall2 (λ i y, l !! Z.to_nat (i - a) = Some y) (nonzero_from a mask) ys →
  ys = select_mask l mask.
Proof.
  revert l ys a. induction mask as [|b mask IH]; intros l ys a Hlen H.
  - simpl in H. inversion H. by destruct l.
  - destruct l as [|x l]; [simpl in Hlen; lia|]. simpl in *.
    assert (∀ ys', Forall2 (λ i y, (x :: l) !! Z.to_nat (i - a) = Some y)
                     (nonzero_from (a + 1) mask) ys' →
                   ys' = select_mask l mask) as Htail.
    { intros ys' H'. apply (IH l ys' (a + 1)); [lia|].
      apply Forall2_same_length_lookup_2; [by eapply Forall2_length|].
      intros k i y Hk Hy.
      destruct (Forall2_lookup_l _ _ _ _ _ H' Hk) as (y'&Hy'&Hl).
      pose proof (list_elem_of_lookup_2 _ _ _ Hk) as [Hi _]%nonzero_from_spec.
      replace (Z.to_nat (i - a)) with (S (Z.to_nat (i - (a + 1)))) in Hl by lia.
      simpl in Hl. congruence. }
    destruct b.
    + inversion H as [|i y ? ys' Hy Hrest]; subst.
      rewrite Z.sub_diag in Hy. simpl in Hy. injection Hy as <-.
      f_equal. by apply Htail.
    + by apply Htail.
Qed.

Lemma gathered_nonzero (l ys : tensor) (mask : list bool) :
  (length mask ≤ length l)%nat → gathered l (nonzero mask) ys →
  ys = select_mask l mask.
Proof.
  intros Hlen H. apply (gathered_nonzero_from l ys mask 0 Hlen).
  eapply Forall2_impl; [exact H|]. intros i y. by rewrite Z.sub_0_r.
Qed.

Lemma select_mask_zip {A B : Type} (l : list A) (k : list B) (mask : list bool) :
  length l = length k →
  select_mask (zip l k) mask = zip (select_mask l mask) (select_mask k mask).
Proof.
  revert k mask. induction l as [|x l IH]; intros [|y k] [|b mask] Hlen;
    simpl in *; try done.
  destruct b; simpl; rewrite IH by lia; done.
Qed.

Lemma select_mask_filter {A : Type} (P : A → bool) (Q : A → Prop)
    `{!∀ x, Decision (Q x)} (l : list A) :
  (∀ x, x ∈ l → P x = true ↔ Q x) →
  select_mask l (map P l) = filter Q l.
Proof.
  induction l as [|x l IH]; intros HPQ; simpl; [done|].
  rewrite filter_cons.
  assert (select_mask l (map P l) = filter Q l) as ->.
  { apply IH. intros y Hy. apply HPQ. by right. }
  pose proof (HPQ x (list_elem_of_here _ _)) as Hx.
  destruct (decide (Q x)) as [HQ|HQ].
  - by rewrite (proj2 Hx HQ).
  - destruct (P x); [|done]. exfalso. by apply HQ, Hx.
Qed.

Lemma Forall_pair_split (l : list (Z * Z)) :
  Forall (λ p, id32 p.1 ∧ id32 p.2) l → Forall id32 l.*1 ∧ Forall id32 l.*2.
Proof.
  intros H. split; apply Forall_fmap; (eapply Forall_impl; [exact H|]);
    by intros [? ?] [? ?].
Qed.

Lemma packed_edge_elem_of (s d : Z) (e : edge_list) :
  id32 s → id32 d → edge_list_wf e →
  Forall (λ p, id32 p.1 ∧ id32 p.2) (edge_pairs e) →
  pack_key int64 s d ∈ edge_keys int64 e ↔ (s, d) ∈ edge_pairs e.
Proof.
  intros Hs Hd Hwf [H1 H2]%Forall_pair_split.
  destruct e as [ex_src ex_dst|rows]; simpl in *.
  - rewrite fst_zip in H1 by lia. rewrite snd_zip in H2 by lia.
    by apply packed_pair_elem_of.
  - rewrite packed_pair_elem_of by done. by rewrite zip_fst_snd.
Qed.

(** The mask of the engine as a test on the sampled pairs. *)
Lemma exclusion_mask_pairs (dt : dtype) (src dst ex : tensor) :
  map negb (isin (zip_with (pack_key dt) src dst) ex)
  = map (λ p, negb (bool_decide (pack_key dt p.1 p.2 ∈ ex))) (zip src dst).
Proof.
  unfold isin. rewrite zip_with_zip.
  change (uncurry (pack_key dt) <$> zip src dst)
    with (map (uncurry (pack_key dt)) (zip src dst)).
  rewrite !map_map. apply map_ext. by intros [s d].
Qed.

Lemma kept_pairs_filter (src dst : tensor) (e : edge_list) :
  Forall id32 src → Forall id32 dst → edge_list_wf e →
  Forall (λ p, id32 p.1 ∧ id32 p.2) (edge_pairs e) →
  select_mask (zip src dst)
    (map negb (isin (zip_with (pack_key int64) src dst) (edge_keys int64 e)))
  = filter (λ p, p ∉ edge_pairs e) (zip src dst).
Proof.
  intros Hsrc Hdst Hwf Hex. rewrite exclusion_mask_pairs.
  apply select_mask_filter. intros [s d] Hin. simpl.
  rewrite Forall_forall in Hsrc, Hdst.
  pose proof (Hsrc s (elem_of_zip_l _ _ _ _ Hin)) as Hs.
  pose proof (Hdst d (elem_of_zip_r _ _ _ _ Hin)) as Hd.
  rewrite negb_true_iff, bool_decide_eq_false.
  by rewrite packed_edge_elem_of.
Qed.

Lemma map_fst_zip {A B C : Type} (f : A → C) (l : list A) (k : list B) :
  (length l ≤ length k)%nat → map (λ x, f x.1) (zip l k) = map f l.
Proof.
  revert k. induction l as [|x l IH]; intros [|y k] Hlen; simpl in *;
    try done; try lia.
  f_equal. apply IH. lia.
Qed.

Lemma kept_triples_filter (src dst t : tensor) (e : edge_list) :
  length t = length (zip src dst) →
  Forall id32 src → Forall id32 dst → edge_list_wf e →
  Forall (λ p, id32 p.1 ∧ id32 p.2) (edge_pairs e) →
  select_mask (zip (zip src dst) t)
    (map negb (isin (zip_with (pack_key int64) src dst) (edge_keys int64 e)))
  = filter (λ x, x.1 ∉ edge_pairs e) (zip (zip src dst) t).
Proof.
  intros Hlen Hsrc Hdst Hwf Hex. rewrite exclusion_mask_pairs.
  rewrite <- (map_fst_zip _ (zip src dst) t) by lia.
  apply select_mask_filter. intros [[s d] x] Hin. simpl.
  apply elem_of_zip_l in Hin.
  rewrite Forall_forall in Hsrc, Hdst.
  pose proof (Hsrc s (elem_of_zip_l _ _ _ _ Hin)) as Hs.
  pose proof (Hdst d (elem_of_zip_r _ _ _ _ Hin)) as Hd.
  rewrite negb_true_iff, bool_decide_eq_false.
  by rewrite packed_edge_elem_of.
Qed.

Lemma select_mask_Forall {A : Type} (P : A → bool) (l : list A) :
  Forall (λ x, P x = true) (select_mask l (map P l)).
Proof.
  induction l as [|x l IH]; simpl; [constructor|].
  destruct (P x) eqn:HP; [by constructor|done].
Qed.

Lemma select_mask_length {A : Type} (l : list A) (k : tensor) (mask : list bool) :
  length l = length k → length (select_mask l mask) = length (select_mask k mask).
Proof.
  revert k mask. induction l as [|x l IH]; intros [|y k] [|b mask] Hlen;
    simpl in *; try done.
  destruct b; simpl; rewrite (IH k) by lia; done.
Qed.

Section exclude_edges_homogeneous.

Variable etype_str_to_tuple : string → option (string * string * string).

(** One call on a well-formed homogeneous subgraph, step by step: the
    resolved edges, the mask of the engine, and the sliced subgraph with
    its own resolved edges. *)
Lemma exclude_edges_homo_run (dt dt_ex : dtype) (g : SampledSubgraph) (c : CSCFormatBase)
    (e : edge_list) :
  sampled_csc g = POne c →
  valid_csc c →
  rows_resolve (original_row_node_ids g) c →
  columns_labelled (original_column_node_ids g) c →
  edge_ids_aligned (length (indices c)) (original_edge_ids g) →
  edge_list_wf e →
  ∃ c' src dst src' dst' new_eids mask,
    _to_reverse_ids c (original_row_node_ids g) (original_column_node_ids g)
    = Ok (src, dst)
    ∧ length src = length (indices c) ∧ length dst = length (indices c)
    ∧ mask = map negb (isin (zip_with (pack_key dt) src dst) (edge_keys dt_ex e))
    ∧ exclude_edges etype_str_to_tuple dt dt_ex g (EdgesHomo e) true
      = Ok (mkSubgraph (POne c') (original_column_node_ids g)
              (original_row_node_ids g) new_eids)
    ∧ mkSubgraph (POne c') (original_column_node_ids g)
        (original_row_node_ids g) new_eids = masked g c mask
    ∧ valid_csc c'
    ∧ rows_resolve (original_row_node_ids g) c'
    ∧ columns_labelled (original_column_node_ids g) c'
    ∧ edge_ids_aligned (length (indices c')) new_eids
    ∧ _to_reverse_ids c' (original_row_node_ids g) (original_column_node_ids g)
      = Ok (src', dst')
    ∧ src' = select_mask src mask ∧ dst' = select_mask dst mask
    ∧ match original_edge_ids g, new_eids with
      | PNone, PNone => True
      | POne t, POne t' => t' = select_mask t mask
      | _, _ => False
      end.
Proof.
  intros Hc Hvalid Hrow Hcol Heids Hwf.
  destruct (to_reverse_ids_Ok c _ _ Hvalid Hrow Hcol) as (src&Hrev&Hsrc%Forall2_length&Hdst).
  set (dst := expand (column_ids (original_column_node_ids g) c) (indptr c)) in *.
  set (mask := map negb (isin (zip_with (pack_key dt) src dst) (edge_keys dt_ex e))).
  assert (length mask = length (indices c)) as Hmask.
  { unfold mask, isin. rewrite !length_map, length_zip_with. lia. }
  assert (retain_index (length (indices c)) (nonzero mask)) as Hri.
  { rewrite <- Hmask. apply nonzero_retain_index. }
  destruct (sliced_reverse_ids c _ _ (nonzero mask) Hvalid Hrow Hcol Hri)
    as (c'&src0&dst0&src'&dst'&Hsel&Hvalid'&Hrow'&Hcol'&Hind&Hrev0&_&_&Hrev'&Hs'&Hd').
  rewrite Hrev in Hrev0. injection Hrev0 as <- <-.
  apply gathered_nonzero in Hs'; [|lia]. apply gathered_nonzero in Hd'; [|lia].
  assert (length (indices c') = length (select_mask src mask)) as Hlen'.
  { apply gathered_nonzero in Hind; [|lia]. rewrite Hind.
    apply select_mask_length. lia. }
  assert (∃ new_eids,
            _index_select select_tensor (original_edge_ids g) (ITensor (nonzero mask))
            = Ok new_eids
            ∧ edge_ids_aligned (length (indices c')) new_eids
            ∧ match original_edge_ids g, new_eids with
              | PNone, PNone => True
              | POne t, POne t' => t' = select_mask t mask
              | _, _ => False
              end) as (new_eids&Hne&Hal&Hfollow).
  { destruct (original_edge_ids g) as [|t|de]; simpl in *; [by exists PNone| |done].
    destruct Hri as [_ Hr]. rewrite <- Heids in Hr.
    destruct (gathered_total t (nonzero mask) Hr) as [ts Hts].
    exists (POne ts). unfold select_tensor.
    assert (getitem t (nonzero mask) = Ok ts) as ->.
    { apply getitem_Ok; [|done].
      eapply Forall_impl; [exact Hr|]. intros; simpl in *; lia. }
    apply gathered_nonzero in Hts; [|lia]. subst ts. simpl.
    split; [done|]. split; [|done].
    rewrite Hlen'. apply select_mask_length. lia. }
  exists c', src, dst, src', dst', new_eids, mask.
  repeat (split; [done|]). split; [|split; [|done]].
  - unfold exclude_edges. rewrite Hc. simpl. rewrite Hrev. simpl.
    rewrite exclude_dispatch_keys by (done || congruence). simpl.
    unfold _slice_subgraph. rewrite Hc. simpl. fold mask. rewrite Hsel. simpl.
    by rewrite Hne.
  - unfold masked. f_equal.
    + apply select_csc_Ok in Hsel as [_ Hp];
        [|apply Hri|by eapply retain_index_nonneg].
      apply gathered_nonzero in Hind; [|lia].
      destruct c' as [p' i']. simpl in *. by subst.
    + destruct (original_edge_ids g), new_eids; try done. by subst.
Qed.

(** X5: exact removal, end to end, on int64 tensors.  On a well-formed
    homogeneous subgraph whose resolved edges are [(src, dst)], with every
    id within 32 bits, [exclude_edges] returns a subgraph whose resolved
    edges are those of the input that are not excluded pairs, in their
    original order, with the node-id maps unchanged and each surviving
    edge carrying its own edge id. *)
Theorem exclude_edges_homo_exact (g : SampledSubgraph) (c : CSCFormatBase)
    (e : edge_list) (src dst : tensor) :
  sampled_csc g = POne c →
  valid_csc c →
  rows_resolve (original_row_node_ids g) c →
  columns_labelled (original_column_node_ids g) c →
  edge_ids_aligned (length (indices c)) (original_edge_ids g) →
  edge_list_wf e →
  _to_reverse_ids c (original_row_node_ids g) (original_column_node_ids g)
  = Ok (src, dst) →
  Forall id32 src → Forall id32 dst →
  Forall (λ p, id32 p.1 ∧ id32 p.2) (edge_pairs e) →
  ∃ g' c' src' dst',
    exclude_edges etype_str_to_tuple int64 int64 g (EdgesHomo e) true = Ok g'
    ∧ sampled_csc g' = POne c'
    ∧ original_row_node_ids g' = original_row_node_ids g
    ∧ original_column_node_ids g' = original_column_node_ids g
    ∧ _to_reverse_ids c' (original_row_node_ids g') (original_column_node_ids g')
      = Ok (src', dst')
    ∧ length src' = length dst'
    ∧ zip src' dst' = filter (λ p, p ∉ edge_pairs e) (zip src dst)
    ∧ edge_ids_follow (λ p, p ∉ edge_pairs e) (zip src dst) (zip src' dst')
        (original_edge_ids g) (original_edge_ids g').
Proof.
  intros Hc Hvalid Hrow Hcol Heids Hwf Hrev Hsrc Hdst Hex.
  destruct (exclude_edges_homo_run int64 int64 g c e Hc Hvalid Hrow Hcol Heids Hwf)
    as (c'&src0&dst0&src'&dst'&new_eids&mask&Hrev0&Hls&Hld&Hmask&Hrun&_&_&_&_&_
        &Hrev'&Hs'&Hd'&Hfollow).
  rewrite Hrev in Hrev0. injection Hrev0 as <- <-.
  assert (zip src' dst' = filter (λ p, p ∉ edge_pairs e) (zip src dst)) as Hzip.
  { rewrite Hs', Hd', <- select_mask_zip by lia. subst mask.
    by apply kept_pairs_filter. }
  eexists _, c', src', dst'. split; [exact Hrun|]. simpl.
  split; [done|]. split; [done|]. split; [done|]. split; [done|].
  split; [subst src' dst'; apply select_mask_length; lia|]. split; [done|].
  unfold edge_ids_follow.
  destruct (original_edge_ids g) as [|t|de], new_eids as [|t'|de']; try done.
  simpl in Heids. rewrite Hs', Hd', Hfollow.
  rewrite <- !select_mask_zip by (rewrite ?length_zip_with; lia). subst mask.
  apply kept_triples_filter; try done. rewrite length_zip_with. lia.
Qed.

Lemma exclude_edges_unmatched_homo (dt dt_ex : dtype) (g : SampledSubgraph)
    (c : CSCFormatBase)
    (e : edge_list) :
  sampled_csc g = POne c →
  valid_csc c →
  rows_resolve (original_row_node_ids g) c →
  columns_labelled (original_column_node_ids g) c →
  edge_ids_aligned (length (indices c)) (original_edge_ids g) →
  edge_list_wf e →
  unmatched dt dt_ex c (original_row_node_ids g) (original_column_node_ids g) e →
  exclude_edges etype_str_to_tuple dt dt_ex g (EdgesHomo e) true = Ok g.
Proof.
  destruct g as [csc col row eids]. simpl.
  intros -> Hvalid Hrow Hcol Heids Hwf Hun.
  destruct (unmatched_index dt dt_ex c row col e Hvalid Hrow Hcol Hwf Hun)
    as (reverse_edges&Hrev&Hidx).
  unfold exclude_edges. simpl. rewrite Hrev. simpl. rewrite Hidx. simpl.
  unfold _slice_subgraph. simpl.
  rewrite select_csc_arange by done. simpl.
  destruct eids as [|t|de]; simpl in *; [done| |done].
  unfold select_tensor. rewrite <- Heids, getitem_arange. done.
Qed.

(** X6: excluding the same edges twice is excluding them once.  On a
    well-formed homogeneous subgraph the call returns a subgraph on which
    a second call with the same exclusion list returns that same
    subgraph, whatever the size of the ids and the integer types of the
    tensors. *)
Theorem exclude_edges_idempotent (dt dt_ex : dtype) (g : SampledSubgraph)
    (c : CSCFormatBase)
    (e : edge_list) :
  sampled_csc g = POne c →
  valid_csc c →
  rows_resolve (original_row_node_ids g) c →
  columns_labelled (original_column_node_ids g) c →
  edge_ids_aligned (length (indices c)) (original_edge_ids g) →
  edge_list_wf e →
  ∃ g',
    exclude_edges etype_str_to_tuple dt dt_ex g (EdgesHomo e) true = Ok g'
    ∧ exclude_edges etype_str_to_tuple dt dt_ex g' (EdgesHomo e) true = Ok g'.
Proof.
  intros Hc Hvalid Hrow Hcol Heids Hwf.
  destruct (exclude_edges_homo_run dt dt_ex g c e Hc Hvalid Hrow Hcol Heids Hwf)
    as (c'&src&dst&src'&dst'&new_eids&mask&Hrev&Hls&Hld&Hmask&Hrun&_&Hvalid'&Hrow'
        &Hcol'&Hal'&Hrev'&Hs'&Hd'&_).
  eexists. split; [exact Hrun|].
  apply (exclude_edges_unmatched_homo _ _ _ c'); try done.
  unfold unmatched, sampled_keys. simpl. rewrite Hrev'.
  rewrite zip_with_zip, Hs', Hd', <- select_mask_zip by lia.
  apply Forall_fmap. subst mask. rewrite exclusion_mask_pairs.
  eapply Forall_impl; [apply select_mask_Forall|].
  intros [s d]. simpl. rewrite negb_true_iff, bool_decide_eq_false. done.
Qed.

End exclude_edges_homogeneous.

(** ** Heterogeneous subgraphs, relation by relation *)

Lemma Forall2_dict_keys {A B : Type} (P : string → A → B → Prop)
    (d : dict A) (d' : dict B) :
  Forall2 (λ kv kr, kr.1 = kv.1 ∧ P kv.1 kv.2 kr.2) d d' →
  dict_keys d' = dict_keys d.
Proof.
  induction 1 as [|[k v] [k' r] d d' [Hk _] _ IH]; [done|].
  unfold dict_keys in *. csimpl in *. by rewrite Hk, IH.
Qed.

Lemma index_select_dict_keys {A : Type} (sel : A → tensor → result A)
    (d : dict A) (idx : dict (option tensor)) (f' : py_field A) :
  NoDup (dict_keys d) →
  _index_select sel (PDict d) (IDict idx) = Ok f' →
  ∃ d', f' = PDict d' ∧ dict_keys d' = dict_keys d.
Proof.
  intros Hnd. simpl.
  destruct (dict_for _ d []) as [d'|] eqn:Hd'; [|done]. simpl.
  intros [= <-]. exists d'. split; [done|].
  apply dict_for_Ok in Hd'; [|done].
  by apply (Forall2_dict_keys
    (λ k v r, (i ← index_getitem idx k; _index_select_leaf sel v i) = Ok r)).
Qed.

Lemma index_select_same_shape {A : Type} (sel : A → tensor → result A)
    (f f' : py_field A) (index : py_index) :
  unique_keys f → _index_select sel f index = Ok f' → same_shape f f'.
Proof.
  intros Hnd Hsel. destruct f as [|a|d].
  - destruct index; simpl in Hsel; by injection Hsel as <-.
  - destruct index as [|i|idx]; simpl in Hsel; [by injection Hsel as <-| |done].
    destruct (sel a i); simpl in Hsel; [|done]. by injection Hsel as <-.
  - destruct index as [|i|idx]; [simpl in Hsel; by injection Hsel as <-|done|].
    destruct (index_select_dict_keys sel d idx f' Hnd Hsel) as (d'&->&Hkeys).
    exact Hkeys.
Qed.

Section exclude_edges_heterogeneous.

Variable etype_str_to_tuple : string → option (string * string * string).
Variables dt dt_ex : dtype.

(** X7: the result has the shape of the input.  Whenever [exclude_edges]
    returns, [sampled_csc] and [original_edge_ids] of the result are of
    the same kind as in the input and, when dictionaries, have exactly the
    same relation keys in the same order: no relation is dropped, added or
    moved, even one that loses all its edges. *)
Theorem exclude_edges_same_shape (g g' : SampledSubgraph) (edges : edges_arg)
    (flag : bool) :
  unique_keys (sampled_csc g) → unique_keys (original_edge_ids g) →
  exclude_edges etype_str_to_tuple dt dt_ex g edges flag = Ok g' →
  same_shape (sampled_csc g) (sampled_csc g')
  ∧ same_shape (original_edge_ids g) (original_edge_ids g').
Proof.
  intros Hnd Hnde (_&index&Hslice&_)%exclude_edges_Ok_inv.
  apply slice_subgraph_Ok_inv in Hslice as (Hcsc&Heids&_&_).
  split; by eapply index_select_same_shape.
Qed.

(** X8: edge ids under a relation the subgraph does not have.  If
    [original_edge_ids] is a dictionary with a key that is not a key of
    [sampled_csc], [exclude_edges] never returns: the lookup [index[k]]
    in [_index_select] fails, whatever [edges] holds. *)
Theorem foreign_edge_ids_key (g : SampledSubgraph) (d : dict CSCFormatBase)
    (de : dict tensor) (k : string) (edges : edges_arg) (flag : bool) :
  sampled_csc g = PDict d → original_edge_ids g = PDict de →
  NoDup (dict_keys d) → NoDup (dict_keys de) →
  k ∈ dict_keys de → k ∉ dict_keys d →
  ∀ g', exclude_edges etype_str_to_tuple dt dt_ex g edges flag ≠ Ok g'.
Proof.
  intros Hd Hde Hnd Hnde Hk Hnk g' (_&index&Hslice&Hindex)%exclude_edges_Ok_inv.
  apply slice_subgraph_Ok_inv in Hslice as (_&Heids&_&_).
  destruct Hindex as [(c&?&?&?&Hc&_)|(d0&m&idx&Hd0&_&Hidx&->)]; [congruence|].
  rewrite Hd in Hd0. injection Hd0 as <-. rewrite Hde in Heids.
  destruct (index_select_dict_get _ _ _ _ Hnde Heids) as (de'&_&Hget).
  specialize (Hget k).
  pose proof (index_dict_get etype_str_to_tuple dt dt_ex g m d idx k Hnd Hidx) as Hik.
  apply dict_get_None in Hnk. rewrite Hnk in Hik.
  destruct (dict_get de k) as [t|] eqn:Ht; [|by apply dict_get_None in Ht].
  destruct (dict_get de' k); [|done].
  destruct Hget as (i&Hi&_). by rewrite Hi in Hik.
Qed.

(** X9: the dispatcher treats each relation as a homogeneous subgraph.
    If a call on a heterogeneous subgraph returns, then for every relation
    that [edges] names, a homogeneous subgraph made of that relation's
    structure, the node-id maps of its source and destination types and
    its edge ids is taken by [exclude_edges], with that relation's
    exclusion list, to the relation's structure and edge ids in the
    result. *)
Theorem relation_as_homogeneous (g g' : SampledSubgraph) (d : dict CSCFormatBase)
    (m : gmap string edge_list) (etype src_type rel dst_type : string)
    (c : CSCFormatBase) (e : edge_list) :
  sampled_csc g = PDict d →
  NoDup (dict_keys d) → unique_keys (original_edge_ids g) →
  exclude_edges etype_str_to_tuple dt dt_ex g (EdgesHetero m) true = Ok g' →
  dict_get d etype = Some c → m !! etype = Some e →
  etype_str_to_tuple etype = Some (src_type, rel, dst_type) →
  ∃ row_map column_map c',
    ids_get (original_row_node_ids g) src_type = Ok row_map
    ∧ ids_get (original_column_node_ids g) dst_type = Ok column_map
    ∧ field_get (sampled_csc g') etype = Some c'
    ∧ exclude_edges etype_str_to_tuple dt dt_ex
        (relation_view c column_map row_map (original_edge_ids g) etype)
        (EdgesHomo e) true
      = Ok (relation_view c' column_map row_map (original_edge_ids g') etype).
Proof.
  intros Hd Hnd Hnde (_&index&Hslice&Hindex)%exclude_edges_Ok_inv Hc Hm Het.
  apply slice_subgraph_Ok_inv in Hslice as (Hcsc&Heids&_&_).
  destruct Hindex as [(?&?&?&?&?&_)|(d0&m0&idx&Hd0&[= <-]&Hidx&->)]; [congruence|].
  rewrite Hd in Hd0. injection Hd0 as <-. rewrite Hd in Hcsc.
  pose proof (index_dict_get etype_str_to_tuple dt dt_ex g m d idx etype Hnd Hidx) as Hik.
  rewrite Hc in Hik. destruct (dict_get idx etype) as [i|] eqn:Hi; [|done].
  unfold exclude_relation, etype_tuple in Hik. rewrite Hm, Het in Hik.
  cbn [mbind result_bind] in Hik.
  destruct (ids_get (original_row_node_ids g) src_type) as [row_map|] eqn:Hr;
    [|done]. cbn [mbind result_bind] in Hik.
  destruct (ids_get (original_column_node_ids g) dst_type) as [column_map|] eqn:Hcm;
    [|done]. cbn [mbind result_bind] in Hik.
  destruct (_to_reverse_ids c row_map column_map) as [reverse_edges|] eqn:Hrev;
    [|done]. cbn [mbind result_bind] in Hik.
  destruct (exclude_dispatch dt dt_ex reverse_edges e true) as [ix|] eqn:Hix; [|done].
  simpl in Hik. injection Hik as <-.
  destruct (index_select_dict_get _ _ _ _ Hnd Hcsc) as (d'&Hd'&Hget).
  specialize (Hget etype). rewrite Hc in Hget.
  destruct (dict_get d' etype) as [c'|] eqn:Hc'; [|done].
  destruct Hget as (i&Hi'&Hleaf). rewrite Hi in Hi'. injection Hi' as <-.
  simpl in Hleaf.
  exists row_map, column_map, c'. split; [done|]. split; [done|].
  split; [by rewrite Hd'|].
  unfold exclude_edges, relation_view. simpl. rewrite Hrev. simpl. rewrite Hix.
  simpl. unfold _slice_subgraph. simpl. rewrite Hleaf. simpl.
  unfold relation_eids.
  destruct (original_edge_ids g) as [|t|de] eqn:Hde.
  - simpl in Heids. injection Heids as <-. done.
  - done.
  - simpl in Hnde.
    destruct (index_select_dict_get _ _ _ _ Hnde Heids) as (de'&->&Hgete).
    specialize (Hgete etype). simpl.
    destruct (dict_get de etype) as [t|], (dict_get de' etype) as [t'|]; try done.
    destruct Hgete as (i&Hi'&Hleaf'). rewrite Hi in Hi'. injection Hi' as <-.
    simpl in Hleaf'. simpl. by rewrite Hleaf'.
Qed.

End exclude_edges_heterogeneous.

(** ** [_relabel_two_arrays] *)

Lemma unique_values_elem_of (t : tensor) (x : Z) : x ∈ unique_values t ↔ x ∈ t.
Proof.
  unfold unique_values. rewrite merge_sort_Permutation. apply elem_of_remove_dups.
Qed.

Lemma unique_values_NoDup (t : tensor) : NoDup (unique_values t).
Proof.
  unfold unique_values. rewrite merge_sort_Permutation. apply NoDup_remove_dups.
Qed.

Lemma unique_values_length (t : tensor) :
  length (unique_values t) = length (remove_dups t).
Proof. unfold unique_values. by rewrite merge_sort_Permutation. Qed.

Lemma unique_values_sorted (t : tensor) : StronglySorted Z.lt (unique_values t).
Proof.
  pose proof (unique_values_NoDup t) as Hnd.
  assert (StronglySorted Z.le (unique_values t)) as Hs.
  { unfold unique_values. apply StronglySorted_merge_sort; apply _. }
  induction Hs as [|x l Hs IH Hall]; [constructor|].
  apply NoDup_cons in Hnd as [Hx Hnd]. constructor; [by apply IH|].
  rewrite Forall_forall in Hall. apply Forall_forall. intros y Hy.
  specialize (Hall y Hy). assert (x ≠ y) by (by intros ->). lia.
Qed.

Lemma index_of_lookup (x : Z) (l : tensor) :
  x ∈ l →
  0 ≤ index_of x l < Z.of_nat (length l)
  ∧ l !! Z.to_nat (index_of x l) = Some x.
Proof.
  induction l as [|y l IH]; [by intros ?%elem_of_nil|].
  intros Hin. simpl. destruct (decide (y = x)) as [->|Hne].
  - split; [lia|done].
  - apply elem_of_cons in Hin as [->|Hin]; [done|].
    destruct (IH Hin) as [Hr Hl]. split; [lia|].
    replace (Z.to_nat (1 + index_of x l)) with (S (Z.to_nat (index_of x l))) by lia.
    done.
Qed.

Lemma index_of_position (x : Z) (l : tensor) (n : nat) :
  NoDup l → l !! n = Some x → index_of x l = Z.of_nat n.
Proof.
  intros Hnd Hn.
  destruct (index_of_lookup x l (list_elem_of_lookup_2 _ _ _ Hn)) as [Hr Hl].
  pose proof (NoDup_lookup l _ _ x Hnd Hl Hn). lia.
Qed.

Lemma index_of_order (u : tensor) (x y : Z) :
  StronglySorted Z.lt u → x ∈ u → y ∈ u →
  x < y ↔ index_of x u < index_of y u.
Proof.
  intros Hs Hx Hy.
  destruct (index_of_lookup x u Hx) as [Hrx Hlx].
  destruct (index_of_lookup y u Hy) as [Hry Hly].
  pose proof (StronglySorted_lookup Z.lt u
                (Z.to_nat (index_of x u)) (Z.to_nat (index_of y u)) x y Hs) as Hxy.
  pose proof (StronglySorted_lookup Z.lt u
                (Z.to_nat (index_of y u)) (Z.to_nat (index_of x u)) y x Hs) as Hyx.
  split.
  - intros Hlt.
    destruct (Z.lt_trichotomy (index_of x u) (index_of y u)) as [?|[Heq|Hgt]]; [done| |].
    + rewrite Heq in Hlx. rewrite Hlx in Hly. injection Hly as ->. lia.
    + assert (y < x) by (apply Hyx; [lia|done|done]). lia.
  - intros Hlt. apply Hxy; [lia|done|done].
Qed.

Lemma relabel_two_arrays_map (lhs rhs : tensor) :
  _relabel_two_arrays lhs rhs
  = (map (λ x, index_of x (unique_values (lhs ++ rhs))) lhs,
     map (λ x, index_of x (unique_values (lhs ++ rhs))) rhs).
Proof.
  unfold _relabel_two_arrays, unique_inverse. cbv zeta.
  rewrite map_app. f_equal.
  - rewrite take_app_length'; [done|by rewrite length_map].
  - rewrite drop_app_length'; [done|by rewrite length_map].
Qed.

(** X10: relabelling keeps the order of the values.  Both arrays are
    mapped through one function of the value, so equal values get equal
    labels within and across the arrays, and a value is smaller than
    another exactly when its label is smaller. *)
Theorem relabel_two_arrays_order (lhs_array rhs_array : tensor) :
  ∃ label : Z → Z,
    _relabel_two_arrays lhs_array rhs_array
    = (map label lhs_array, map label rhs_array)
    ∧ ∀ x y, x ∈ lhs_array ++ rhs_array → y ∈ lhs_array ++ rhs_array →
        x < y ↔ label x < label y.
Proof.
  exists (λ x, index_of x (unique_values (lhs_array ++ rhs_array))).
  split; [apply relabel_two_arrays_map|].
  intros x y Hx Hy. apply index_of_order.
  - apply unique_values_sorted.
  - by apply unique_values_elem_of.
  - by apply unique_values_elem_of.
Qed.

(** X11: the labels are consecutive from 0.  With [k] the number of
    distinct values of the two arrays together, every label lies in
    [0, k) and every number of [0, k) is the label of some element. *)
Theorem relabel_two_arrays_range (lhs_array rhs_array : tensor) :
  let k := Z.of_nat (length (remove_dups (lhs_array ++ rhs_array))) in
  let labels := (_relabel_two_arrays lhs_array rhs_array).1
                ++ (_relabel_two_arrays lhs_array rhs_array).2 in
  length (_relabel_two_arrays lhs_array rhs_array).1 = length lhs_array
  ∧ length (_relabel_two_arrays lhs_array rhs_array).2 = length rhs_array
  ∧ ∀ n, n ∈ labels ↔ 0 ≤ n < k.
Proof.
  intros k labels. unfold labels, k. rewrite relabel_two_arrays_map. simpl.
  rewrite !length_map. split; [done|]. split; [done|].
  rewrite <- map_app, <- unique_values_length.
  set (u := unique_values (lhs_array ++ rhs_array)).
  intros n. split.
  - intros (x&->&Hx)%list_elem_of_fmap.
    apply index_of_lookup. by apply unique_values_elem_of.
  - intros Hn. destruct (lookup_lt_is_Some_2 u (Z.to_nat n)) as [x Hx]; [lia|].
    apply list_elem_of_fmap. exists x. split.
    + rewrite (index_of_position x u (Z.to_nat n)); [lia| |done].
      apply unique_values_NoDup.
    + apply unique_values_elem_of. by eapply list_elem_of_lookup_2.
Qed.

(** ** Excluding in two steps *)

Lemma edge_keys_pairs (dt_ex : dtype) (e : edge_list) :
  edge_keys dt_ex e = map (λ p, pack_key dt_ex p.1 p.2) (edge_pairs e).
Proof.
  destruct e as [src dst|rows]; simpl.
  - rewrite zip_with_zip. apply map_ext. by intros [? ?].
  - induction rows as [|[s d] rows IH]; simpl; [done|]. by rewrite <- IH.
Qed.

Lemma edge_keys_app (dt_ex : dtype) (e1 e2 : edge_list) :
  edge_keys dt_ex (EdgeTable (edge_pairs e1 ++ edge_pairs e2))
  = edge_keys dt_ex e1 ++ edge_keys dt_ex e2.
Proof. rewrite !edge_keys_pairs. simpl. apply map_app. Qed.

Lemma keeps_app (dt dt_ex : dtype) (e1 e2 : edge_list) (p : Z * Z) :
  keeps dt dt_ex (EdgeTable (edge_pairs e1 ++ edge_pairs e2)) p
  = keeps dt dt_ex e1 p && keeps dt dt_ex e2 p.
Proof.
  unfold keeps. rewrite edge_keys_app, <- negb_orb. f_equal.
  rewrite <- bool_decide_or. apply bool_decide_ext. apply elem_of_app.
Qed.

Lemma exclusion_mask_keeps (dt dt_ex : dtype) (src dst : tensor) (e : edge_list) :
  map negb (isin (zip_with (pack_key dt) src dst) (edge_keys dt_ex e))
  = map (keeps dt dt_ex e) (zip src dst).
Proof. apply exclusion_mask_pairs. Qed.

(** Selecting by one test and then by a second, evaluated on what is left,
    is selecting by both. *)
Lemma select_mask_twice {A B : Type} (P1 P2 : B → bool) (l : list A) (ps : list B) :
  length l = length ps →
  select_mask (select_mask l (map P1 ps))
    (map P2 (select_mask ps (map P1 ps)))
  = select_mask l (map (λ p, P1 p && P2 p) ps).
Proof.
  revert l. induction ps as [|p ps IH]; intros [|x l] Hlen; simpl in *; try done.
  destruct (P1 p); simpl.
  - destruct (P2 p); simpl; rewrite IH by lia; done.
  - apply IH. lia.
Qed.

Lemma count_lt_nonzero_from_low (a v : Z) (mask : list bool) :
  v ≤ a → count_lt (nonzero_from a mask) v = 0.
Proof.
  intros Hva. apply count_lt_none, Forall_forall.
  intros i [Hi _]%nonzero_from_spec. lia.
Qed.

(** The same for the column boundaries: counting the positions kept by the
    second test below the count of those kept by the first is counting the
    positions kept by both. *)
Lemma count_lt_twice {B : Type} (P1 P2 : B → bool) (ps : list B) (a a2 v : Z) :
  count_lt (nonzero_from a2 (map P2 (select_mask ps (map P1 ps))))
    (a2 + count_lt (nonzero_from a (map P1 ps)) v)
  = count_lt (nonzero_from a (map (λ p, P1 p && P2 p) ps)) v.
Proof.
  revert a a2. induction ps as [|p ps IH]; intros a a2; simpl; [done|].
  destruct (P1 p); simpl; [|apply IH].
  rewrite count_lt_cons.
  destruct (decide (a < v)) as [Hav|Hav].
  - pose proof (count_lt_nonneg (nonzero_from (a + 1) (map P1 ps)) v) as Hnn.
    specialize (IH (a + 1) (a2 + 1)).
    replace (a2 + (1 + count_lt (nonzero_from (a + 1) (map P1 ps)) v))
      with (a2 + 1 + count_lt (nonzero_from (a + 1) (map P1 ps)) v) by lia.
    destruct (P2 p); simpl.
    + rewrite !count_lt_cons, IH.
      rewrite decide_True by lia. by rewrite decide_True by lia.
    + by rewrite IH.
  - rewrite (count_lt_nonzero_from_low (a + 1)) by lia.
    replace (a2 + (0 + 0)) with a2 by lia.
    destruct (P2 p).
    + rewrite !count_lt_cons, !decide_False by lia.
      rewrite !count_lt_nonzero_from_low by lia. done.
    + rewrite !count_lt_nonzero_from_low by lia. done.
Qed.

Lemma masked_twice (g : SampledSubgraph) (c c1 : CSCFormatBase) (ps : list (Z * Z))
    (P1 P2 : Z * Z → bool) :
  sampled_csc (masked g c (map P1 ps)) = POne c1 →
  length ps = length (indices c) →
  edge_ids_aligned (length (indices c)) (original_edge_ids g) →
  masked (masked g c (map P1 ps)) c1 (map P2 (select_mask ps (map P1 ps)))
  = masked g c (map (λ p, P1 p && P2 p) ps).
Proof.
  intros Hc1 Hps Heids. unfold masked in *. simpl in *. injection Hc1 as <-. simpl.
  f_equal.
  - f_equal. f_equal.
    + rewrite map_map. apply map_ext. intros v. unfold nonzero.
      pose proof (count_lt_twice P1 P2 ps 0 0 v) as H. by rewrite Z.add_0_l in H.
    + by apply select_mask_twice.
  - destruct (original_edge_ids g) as [|t|de]; simpl in *; [done| |done].
    f_equal. apply select_mask_twice. lia.
Qed.

Section exclude_edges_sequences.

Variable etype_str_to_tuple : string → option (string * string * string).
Variables dt dt_ex : dtype.

(** One call on a well-formed homogeneous subgraph, with its result
    written out. *)
Lemma exclude_once (g : SampledSubgraph) (c : CSCFormatBase) (e : edge_list) :
  sampled_csc g = POne c →
  valid_csc c →
  rows_resolve (original_row_node_ids g) c →
  columns_labelled (original_column_node_ids g) c →
  edge_ids_aligned (length (indices c)) (original_edge_ids g) →
  edge_list_wf e →
  ∃ src dst,
    _to_reverse_ids c (original_row_node_ids g) (original_column_node_ids g)
    = Ok (src, dst)
    ∧ length src = length (indices c) ∧ length dst = length (indices c)
    ∧ exclude_edges etype_str_to_tuple dt dt_ex g (EdgesHomo e) true
      = Ok (masked g c (map (keeps dt dt_ex e) (zip src dst))).
Proof.
  intros Hc Hvalid Hrow Hcol Heids Hwf.
  destruct (exclude_edges_homo_run etype_str_to_tuple dt dt_ex g c e Hc Hvalid Hrow Hcol Heids Hwf)
    as (c'&src&dst&src'&dst'&new_eids&mask&Hrev&Hls&Hld&Hmask&Hrun&Hmasked&_).
  exists src, dst. repeat (split; [done|]).
  by rewrite Hrun, Hmasked, Hmask, exclusion_mask_keeps.
Qed.

Lemma exclude_twice (g : SampledSubgraph) (c : CSCFormatBase) (e1 e2 : edge_list) :
  sampled_csc g = POne c →
  valid_csc c →
  rows_resolve (original_row_node_ids g) c →
  columns_labelled (original_column_node_ids g) c →
  edge_ids_aligned (length (indices c)) (original_edge_ids g) →
  edge_list_wf e1 → edge_list_wf e2 →
  ∃ src dst g1,
    _to_reverse_ids c (original_row_node_ids g) (original_column_node_ids g)
    = Ok (src, dst)
    ∧ length src = length (indices c) ∧ length dst = length (indices c)
    ∧ exclude_edges etype_str_to_tuple dt dt_ex g (EdgesHomo e1) true = Ok g1
    ∧ exclude_edges etype_str_to_tuple dt dt_ex g1 (EdgesHomo e2) true
      = Ok (masked g c (map (λ p, keeps dt dt_ex e1 p && keeps dt dt_ex e2 p)
                          (zip src dst))).
Proof.
  intros Hc Hvalid Hrow Hcol Heids Hwf1 Hwf2.
  destruct (exclude_edges_homo_run etype_str_to_tuple dt dt_ex g c e1 Hc Hvalid Hrow Hcol Heids Hwf1)
    as (c1&src&dst&src1&dst1&eids1&m1&Hrev&Hls&Hld&Hm1&Hrun1&Hmasked1&Hvalid1&Hrow1
        &Hcol1&Hal1&Hrev1&Hs1&Hd1&_).
  set (g1 := mkSubgraph (POne c1) (original_column_node_ids g)
               (original_row_node_ids g) eids1) in *.
  destruct (exclude_once g1 c1 e2 eq_refl Hvalid1 Hrow1 Hcol1 Hal1 Hwf2)
    as (src1'&dst1'&Hrev1'&_&_&Hrun2).
  simpl in Hrev1'. rewrite Hrev1 in Hrev1'. injection Hrev1' as <- <-.
  exists src, dst, g1. repeat (split; [done|]).
  rewrite Hrun2. f_equal.
  rewrite Hs1, Hd1, <- select_mask_zip by lia.
  rewrite Hm1, exclusion_mask_keeps in *.
  rewrite Hmasked1. apply masked_twice.
  - by rewrite <- Hmasked1.
  - rewrite length_zip_with. lia.
  - done.
Qed.

(** X12: excluding in two steps is excluding the union.  On a well-formed
    homogeneous subgraph, excluding a first list and then a second from
    the result returns the subgraph that one call returns for the table
    holding the pairs of both lists. *)
Theorem exclude_edges_sequential (g : SampledSubgraph) (c : CSCFormatBase)
    (e1 e2 : edge_list) :
  sampled_csc g = POne c →
  valid_csc c →
  rows_resolve (original_row_node_ids g) c →
  columns_labelled (original_column_node_ids g) c →
  edge_ids_aligned (length (indices c)) (original_edge_ids g) →
  edge_list_wf e1 → edge_list_wf e2 →
  ∃ g1 g2,
    exclude_edges etype_str_to_tuple dt dt_ex g (EdgesHomo e1) true = Ok g1
    ∧ exclude_edges etype_str_to_tuple dt dt_ex g1 (EdgesHomo e2) true = Ok g2
    ∧ exclude_edges etype_str_to_tuple dt dt_ex g
        (EdgesHomo (EdgeTable (edge_pairs e1 ++ edge_pairs e2))) true = Ok g2.
Proof.
  intros Hc Hvalid Hrow Hcol Heids Hwf1 Hwf2.
  destruct (exclude_twice g c e1 e2 Hc Hvalid Hrow Hcol Heids Hwf1 Hwf2)
    as (src&dst&g1&Hrev&_&_&Hrun1&Hrun2).
  destruct (exclude_once g c (EdgeTable (edge_pairs e1 ++ edge_pairs e2))
              Hc Hvalid Hrow Hcol Heids I)
    as (src'&dst'&Hrev'&_&_&Hrun12).
  rewrite Hrev in Hrev'. injection Hrev' as <- <-.
  eexists g1, _. split; [exact Hrun1|]. split; [exact Hrun2|].
  rewrite Hrun12. do 2 f_equal. apply map_ext. intros p. apply keeps_app.
Qed.

(** X13: the order of two exclusions does not matter.  On a well-formed
    homogeneous subgraph, excluding a first list and then a second returns
    the subgraph obtained by excluding the second and then the first. *)
Theorem exclude_edges_commute (g : SampledSubgraph) (c : CSCFormatBase)
    (e1 e2 : edge_list) :
  sampled_csc g = POne c →
  valid_csc c →
  rows_resolve (original_row_node_ids g) c →
  columns_labelled (original_column_node_ids g) c →
  edge_ids_aligned (length (indices c)) (original_edge_ids g) →
  edge_list_wf e1 → edge_list_wf e2 →
  ∃ g1 g1' g2,
    exclude_edges etype_str_to_tuple dt dt_ex g (EdgesHomo e1) true = Ok g1
    ∧ exclude_edges etype_str_to_tuple dt dt_ex g1 (EdgesHomo e2) true = Ok g2
    ∧ exclude_edges etype_str_to_tuple dt dt_ex g (EdgesHomo e2) true = Ok g1'
    ∧ exclude_edges etype_str_to_tuple dt dt_ex g1' (EdgesHomo e1) true = Ok g2.
Proof.
  intros Hc Hvalid Hrow Hcol Heids Hwf1 Hwf2.
  destruct (exclude_twice g c e1 e2 Hc Hvalid Hrow Hcol Heids Hwf1 Hwf2)
    as (src&dst&g1&Hrev&_&_&Hrun1&Hrun2).
  destruct (exclude_twice g c e2 e1 Hc Hvalid Hrow Hcol Heids Hwf2 Hwf1)
    as (src'&dst'&g1'&Hrev'&_&_&Hrun1'&Hrun2').
  rewrite Hrev in Hrev'. injection Hrev' as <- <-.
  eexists g1, g1', _. split; [exact Hrun1|]. split; [exact Hrun2|].
  split; [exact Hrun1'|]. rewrite Hrun2'. do 2 f_equal.
  apply map_ext. intros p. apply andb_comm.
Qed.

End exclude_edges_sequences.

(** ** Instances of the further properties *)

Lemma exclude_edges_homo_exact_witness :
  ∃ g' c' src' dst',
    exclude_edges split_etype int64 int64 doc_homo_subgraph
      (EdgesHomo (EdgePair [14; 15] [11; 12])) true = Ok g'
    ∧ sampled_csc g' = POne c'
    ∧ original_row_node_ids g' = original_row_node_ids doc_homo_subgraph
    ∧ original_column_node_ids g' = original_column_node_ids doc_homo_subgraph
    ∧ _to_reverse_ids c' (original_row_node_ids g') (original_column_node_ids g')
      = Ok (src', dst')
    ∧ length src' = length dst'
    ∧ zip src' dst'
      = filter (λ p, p ∉ edge_pairs (EdgePair [14; 15] [11; 12]))
          (zip [13; 14; 15] [10; 11; 12])
    ∧ edge_ids_follow (λ p, p ∉ edge_pairs (EdgePair [14; 15] [11; 12]))
        (zip [13; 14; 15] [10; 11; 12]) (zip src' dst')
        (original_edge_ids doc_homo_subgraph) (original_edge_ids g').
Proof.
  apply (exclude_edges_homo_exact split_etype doc_homo_subgraph doc_csc);
    try reflexivity; try (by concrete);
    repeat constructor; unfold id32; simpl; lia.
Defined.

Lemma exclude_edges_idempotent_witness :
  ∃ g',
    exclude_edges split_etype int64 int64 doc_homo_subgraph
      (EdgesHomo (EdgeTable [(14, 11); (15, 12)])) true = Ok g'
    ∧ exclude_edges split_etype int64 int64 g' (EdgesHomo (EdgeTable [(14, 11); (15, 12)])) true
      = Ok g'.
Proof.
  apply (exclude_edges_idempotent split_etype int64 int64 doc_homo_subgraph doc_csc);
    try reflexivity; concrete.
Defined.

Lemma exclude_edges_same_shape_witness :
  same_shape (sampled_csc doc_subgraph) (sampled_csc doc_result)
  ∧ same_shape (original_edge_ids doc_subgraph) (original_edge_ids doc_result).
Proof.
  apply (exclude_edges_same_shape split_etype int64 int64 doc_subgraph doc_result doc_edges true).
  - simpl. apply NoDup_singleton.
  - simpl. apply NoDup_singleton.
  - by vm_compute.
Defined.

Lemma foreign_edge_ids_key_witness :
  ¬ ∃ g', exclude_edges split_etype int64 int64 misfiled_subgraph (EdgesHetero ∅) true = Ok g'.
Proof.
  intros [g' Hg']. revert Hg'.
  apply (foreign_edge_ids_key split_etype int64 int64 misfiled_subgraph
           [("A:relation:B"%string, doc_csc)]
           [("B:relation:A"%string, [19; 20; 21])] "B:relation:A"%string).
  - reflexivity.
  - reflexivity.
  - simpl. apply NoDup_singleton.
  - simpl. apply NoDup_singleton.
  - simpl. left.
  - simpl. intros Hin. apply list_elem_of_singleton in Hin. discriminate Hin.
Defined.

Lemma relation_as_homogeneous_witness :
  ∃ row_map column_map c',
    ids_get (original_row_node_ids doc_subgraph) "A" = Ok row_map
    ∧ ids_get (original_column_node_ids doc_subgraph) "B" = Ok column_map
    ∧ field_get (sampled_csc doc_result) "A:relation:B" = Some c'
    ∧ exclude_edges split_etype int64 int64
        (relation_view doc_csc column_map row_map (original_edge_ids doc_subgraph)
           "A:relation:B")
        (EdgesHomo (EdgePair [14; 15] [11; 12])) true
      = Ok (relation_view c' column_map row_map (original_edge_ids doc_result)
              "A:relation:B").
Proof.
  apply (relation_as_homogeneous split_etype int64 int64 doc_subgraph doc_result
           [("A:relation:B"%string, doc_csc)]
           {[ "A:relation:B"%string := EdgePair [14; 15] [11; 12] ]}
           "A:relation:B" "A" "relation" "B").
  - reflexivity.
  - simpl. apply NoDup_singleton.
  - simpl. apply NoDup_singleton.
  - by vm_compute.
  - reflexivity.
  - by rewrite lookup_singleton_eq.
  - reflexivity.
Defined.

Lemma exclude_edges_sequential_witness :
  ∃ g1 g2,
    exclude_edges split_etype int64 int64 doc_homo_subgraph (EdgesHomo (EdgePair [14] [11])) true
    = Ok g1
    ∧ exclude_edges split_etype int64 int64 g1 (EdgesHomo (EdgeTable [(15, 12)])) true = Ok g2
    ∧ exclude_edges split_etype int64 int64 doc_homo_subgraph
        (EdgesHomo (EdgeTable (edge_pairs (EdgePair [14] [11])
                               ++ edge_pairs (EdgeTable [(15, 12)])))) true = Ok g2.
Proof.
  apply (exclude_edges_sequential split_etype int64 int64 doc_homo_subgraph doc_csc);
    try reflexivity; concrete.
Defined.

Lemma exclude_edges_commute_witness :
  ∃ g1 g1' g2,
    exclude_edges split_etype int64 int64 doc_homo_subgraph (EdgesHomo (EdgePair [14] [11])) true
    = Ok g1
    ∧ exclude_edges split_etype int64 int64 g1 (EdgesHomo (EdgeTable [(15, 12)])) true = Ok g2
    ∧ exclude_edges split_etype int64 int64 doc_homo_subgraph
        (EdgesHomo (EdgeTable [(15, 12)])) true = Ok g1'
    ∧ exclude_edges split_etype int64 int64 g1' (EdgesHomo (EdgePair [14] [11])) true = Ok g2.
Proof.
  apply (exclude_edges_commute split_etype int64 int64 doc_homo_subgraph doc_csc);
    try reflexivity; concrete.
Defined.
